(** * The ABCI connection engine of [tend.abci.protocol]

    A shallow embedding of [Protocol] (src/tend/abci/protocol.py): the
    length-prefixed frame codec, the classifier and handler binding of
    [async_response], the ordered drain of the pending deque and the
    teardown started by [connection_lost], over a small model of the asyncio
    event loop that drives them. *)

From stdpp Require Import base tactics option list strings numbers gmap.
From Stdlib Require Import Strings.Byte NArith.

(** ** Bytes

    A Python [bytes] object is a [list byte]; [b & 0x7F] and the like read a
    byte as the integer in [0, 256) it stands for. *)

Definition bytes := list byte.

#[global] Instance byte_eq_dec : EqDecision byte := Byte.byte_eq_dec.

Definition int_of_byte (b : byte) : N := Byte.to_N b.

(** [bytes([n])] for an integer in [range(256)] ([byte_of_int_inv]); the
    encoder builds no other: seven low bits, with or without [0x80]. *)
Definition byte_of_int (n : N) : byte :=
  match Byte.of_N n with
  | Some b => b
  | None => x00
  end.

(** ** Exceptions

    The exceptions the engine raises itself, those of the libraries it calls,
    and [External] for whatever a collaborator (handler, factory, wire
    schema) raises. *)

Inductive PyExc :=
| VarintTruncated
    (* decode_varint ran off the end of the buffer: IndexError in
       betterproto 1.x, EOFError in 2.x *)
| VarintTooLong
    (* "Too many bytes when decoding varint." *)
| NotImplementedError (msg : string)
| AttributeError (attr : string)
| RuntimeError (msg : string)
| TypeError (msg : string)
| ValueError (msg : string)
| InvalidStateError (msg : string)
| ConnectionResetError (msg : string)
| External (tag : string).

#[global] Instance PyExc_eq_dec : EqDecision PyExc.
Proof. solve_decision. Defined.

(** [Raise e] or [Return v]: how a Python call ends. *)
Inductive Outcome (A : Type) :=
| Raise (e : PyExc)
| Return (v : A).
Arguments Raise {A} e.
Arguments Return {A} v.

#[global] Instance Outcome_eq_dec {A} `{EqDecision A} : EqDecision (Outcome A).
Proof. solve_decision. Defined.

(** ** Varints (betterproto)

    The engine frames with [betterproto.encode_varint] and
    [betterproto.decode_varint], a library; its releases differ only in the
    class of the exception raised on a varint cut short. *)
Module Varint.

(** The loop of [encode_varint]:
    [while value: b.append(0x80 | bits); bits = value & 0x7F; value >>= 7],
    then [bytes(b + [bits])]. Every turn drops seven bits of [value], so
    as many turns of fuel as [value] has bits are enough ([encode_loop_fuel]). *)
Fixpoint encode_loop (fuel : nat) (value bits : N) (b : bytes) : bytes :=
  match fuel with
  | O => b ++ [byte_of_int bits]
  | S fuel' =>
      if (value =? 0)%N then b ++ [byte_of_int bits]
      else encode_loop fuel' (N.shiftr value 7) (N.land value 0x7F)
             (b ++ [byte_of_int (N.lor 0x80 bits)])
  end.

(** [encode_varint(value)] for [value >= 0], the only arguments
    [process_response] passes ([len(data) << 1]). *)
Definition encode_varint (value : N) : bytes :=
  encode_loop (N.to_nat (N.size (N.shiftr value 7)))
    (N.shiftr value 7) (N.land value 0x7F) [].

(** The loop of [decode_varint] over the bytes from [pos] on:
    [b = buffer[pos]; result |= (b & 0x7F) << shift; pos += 1;
     if not (b & 0x80): return result, pos; shift += 7;
     if shift >= 64: raise]. *)
Fixpoint decode_loop (rest : bytes) (result shift : N) (pos : nat)
  : Outcome (N * nat) :=
  match rest with
  | [] => Raise VarintTruncated
  | b :: rest' =>
      let result := N.lor result (N.shiftl (N.land (int_of_byte b) 0x7F) shift) in
      let pos := S pos in
      if (N.land (int_of_byte b) 0x80 =? 0)%N then Return (result, pos)
      else
        let shift := (shift + 7)%N in
        if (64 <=? shift)%N then Raise VarintTooLong
        else decode_loop rest' result shift pos
  end.

Definition decode_varint (buffer : bytes) (pos : nat) : Outcome (N * nat) :=
  decode_loop (drop pos buffer) 0%N 0%N pos.

End Varint.
Export Varint.

(** ** Messages, handlers, tasks *)

(** Modelled from the spec: the generated protobuf classes of
    [pb.tendermint.abci] ([Request], [Response], [ResponseEcho],
    [ResponseFlush]) are not among the sources. The echo request carries a
    [message] string, [ResponseEcho(m)] carries [m], [ResponseFlush()] is
    empty; every other message is opaque to the engine. *)
Inductive Message :=
| RequestEcho (message : string)
| ResponseEcho (message : string)
| ResponseFlush
| OtherMessage (variant : string) (body : bytes).

#[global] Instance Message_eq_dec : EqDecision Message.
Proof. solve_decision. Defined.

(** [message.message]: the attribute read of [response_echo]. *)
Definition message_attr (m : Message) : Outcome string :=
  match m with
  | RequestEcho s | ResponseEcho s => Return s
  | _ => Raise (AttributeError "message")
  end.

(** The four handler classes [get_connection_handler] is asked for. *)
Inductive HandlerClass :=
| InfoHandler
| ConsensusHandler
| StateSyncHandler
| MempoolHandler.

#[global] Instance HandlerClass_eq_dec : EqDecision HandlerClass.
Proof. solve_decision. Defined.

(** A handler object: its identity and the operation names for which
    [getattr(handler, name, None)] is truthy. *)
Record Handler := { ident : nat; methods : list string }.

#[global] Instance Handler_eq_dec : EqDecision Handler.
Proof. solve_decision. Defined.

(** A done-callback: a lambda of [arity] parameters and what its body does. *)
Inductive Action :=
| ProcessResponseTasks
| DiscardConnection.

Record Callback := { arity : nat; action : Action }.

(** [lambda _: self.process_response_tasks()] (line 117). *)
Definition drain_callback : Callback :=
  {| arity := 1; action := ProcessResponseTasks |}.

(** [lambda: self.server_state.connections.discard(self)] (line 59). *)
Definition discard_callback : Callback :=
  {| arity := 0; action := DiscardConnection |}.

(** Where the coroutine [async_response] of a task stands. *)
Inductive Coro :=
| Created
| AwaitFactory (cls : HandlerClass)
| AwaitHandler
| Finished (r : Outcome Message).

#[global] Instance Coro_eq_dec : EqDecision Coro.
Proof. solve_decision. Defined.

(** One asyncio task running [async_response(name, message)]. *)
Record Task := {
  task_name : string;
  task_message : Message;
  task_coro : Coro;
  task_callbacks : list Callback
}.

(** Where the coroutine [close] of a teardown task stands. *)
Inductive CloseCoro :=
| CloseCreated
| CloseAwaitGather
| CloseFinished (r : Outcome unit).

Record CloseTask := {
  close_exc : PyExc;
  close_coro : CloseCoro;
  close_callbacks : list Callback
}.

(** ** The connection and its event loop

    The attributes of one [Protocol] instance ([buffer], [handler], [tasks],
    the writes made on [transport]), the tasks the loop holds for it in
    creation order (a task is named by its index), the shared
    [server_state.connections] and the exceptions that escaped into the
    loop. *)
Record World := {
  buffer : bytes;
  handler : option Handler;
  tasks : list (string * nat);
  transport : list bytes;
  loop_tasks : list Task;
  close_tasks : list CloseTask;
  connections : gset nat;
  loop_errors : list PyExc
}.

Definition set_buffer (b : bytes) (w : World) : World :=
  {| buffer := b; handler := handler w; tasks := tasks w;
     transport := transport w; loop_tasks := loop_tasks w;
     close_tasks := close_tasks w; connections := connections w;
     loop_errors := loop_errors w |}.

Definition set_handler (h : option Handler) (w : World) : World :=
  {| buffer := buffer w; handler := h; tasks := tasks w;
     transport := transport w; loop_tasks := loop_tasks w;
     close_tasks := close_tasks w; connections := connections w;
     loop_errors := loop_errors w |}.

Definition set_tasks (ts : list (string * nat)) (w : World) : World :=
  {| buffer := buffer w; handler := handler w; tasks := ts;
     transport := transport w; loop_tasks := loop_tasks w;
     close_tasks := close_tasks w; connections := connections w;
     loop_errors := loop_errors w |}.

Definition set_transport (tr : list bytes) (w : World) : World :=
  {| buffer := buffer w; handler := handler w; tasks := tasks w;
     transport := tr; loop_tasks := loop_tasks w;
     close_tasks := close_tasks w; connections := connections w;
     loop_errors := loop_errors w |}.

Definition set_loop_tasks (lt : list Task) (w : World) : World :=
  {| buffer := buffer w; handler := handler w; tasks := tasks w;
     transport := transport w; loop_tasks := lt;
     close_tasks := close_tasks w; connections := connections w;
     loop_errors := loop_errors w |}.

Definition set_close_tasks (ct : list CloseTask) (w : World) : World :=
  {| buffer := buffer w; handler := handler w; tasks := tasks w;
     transport := transport w; loop_tasks := loop_tasks w;
     close_tasks := ct; connections := connections w;
     loop_errors := loop_errors w |}.

Definition set_connections (cs : gset nat) (w : World) : World :=
  {| buffer := buffer w; handler := handler w; tasks := tasks w;
     transport := transport w; loop_tasks := loop_tasks w;
     close_tasks := close_tasks w; connections := cs;
     loop_errors := loop_errors w |}.

Definition set_loop_errors (es : list PyExc) (w : World) : World :=
  {| buffer := buffer w; handler := handler w; tasks := tasks w;
     transport := transport w; loop_tasks := loop_tasks w;
     close_tasks := close_tasks w; connections := connections w;
     loop_errors := es |}.

Definition set_coro (c : Coro) (t : Task) : Task :=
  {| task_name := task_name t; task_message := task_message t;
     task_coro := c; task_callbacks := task_callbacks t |}.

Definition set_callbacks (cbs : list Callback) (t : Task) : Task :=
  {| task_name := task_name t; task_message := task_message t;
     task_coro := task_coro t; task_callbacks := cbs |}.

(** [Protocol.__init__]: empty buffer, no handler, empty deque. *)
Definition new_protocol (cs : gset nat) : World :=
  {| buffer := []; handler := None; tasks := []; transport := [];
     loop_tasks := []; close_tasks := []; connections := cs;
     loop_errors := [] |}.

(** [task.done()]. *)
Definition task_done (w : World) (tid : nat) : bool :=
  match loop_tasks w !! tid with
  | Some {| task_coro := Finished _ |} => true
  | _ => false
  end.

(** [deque.remove(x)]: drops the first element equal to [x]; [None] stands
    for its ValueError when there is none. *)
Fixpoint deque_remove (x : string * nat) (d : list (string * nat))
  : option (list (string * nat)) :=
  match d with
  | [] => None
  | y :: d' =>
      if decide (y = x) then Some d'
      else match deque_remove x d' with
           | Some r => Some (y :: r)
           | None => None
           end
  end.

(** The category tests of lines 78-89, first match wins. *)
Definition handler_class_of (name : string) : option HandlerClass :=
  if decide (name ∈ ["info"; "set_option"; "query"]) then Some InfoHandler
  else if decide (name ∈ ["init_chain"; "begin_block"; "deliver_tx";
                          "end_block"; "commit"]) then Some ConsensusHandler
  else if decide (name ∈ ["list_snapshots"; "offer_snapshot";
                          "load_snapshot_chunk"; "apply_snapshot_chunk"])
       then Some StateSyncHandler
  else if decide (name = "check_tx") then Some MempoolHandler
  else None.

(** The text of the NotImplementedError of line 109. *)
Definition not_implemented (name : string) : PyExc :=
  NotImplementedError
    ("Async ABCI Method `" +:+ name +:+ "` is not implemented").

(** ** The operations of [Protocol] *)

Section Engine.

(** [betterproto.which_one_of(Request().parse(data), "value")]: the wire
    schema, a collaborator; it raises on a corrupt payload. *)
Variable parse_request : bytes -> Outcome (string * Message).

(** [bytes(Response(...))] with the one field [name] set to [message]. *)
Variable serialize_response : string -> Message -> Outcome bytes.

(** The identity of this connection in [server_state.connections]. *)
Variable self : nat.

(** *** Outgoing frames *)

(** [process_response]: the varint of [len(data) << 1], then [data], as two
    writes. *)
Definition process_response (name : string) (message : Message) (w : World)
  : World * Outcome unit :=
  match serialize_response name message with
  | Raise e => (w, Raise e)
  | Return data =>
      let prefix := encode_varint (N.shiftl (N.of_nat (length data)) 1) in
      (set_transport (transport w ++ [prefix; data]) w, Return tt)
  end.

(** *** The ordered drain *)

(** [process_response_task]: re-raise the task's exception or write its
    result; the [finally] clause removes the unit on both paths (and its
    own ValueError replaces the outcome when the unit is not queued). *)
Definition process_response_task (name : string) (tid : nat) (w : World)
  : World * Outcome unit :=
  let '(w1, r) :=
    match loop_tasks w !! tid with
    | Some {| task_coro := Finished (Raise e) |} => (w, Raise e)
    | Some {| task_coro := Finished (Return m) |} => process_response name m w
    | _ => (w, Raise (InvalidStateError "Exception is not set."))
    end in
  match deque_remove (name, tid) (tasks w1) with
  | Some ts => (set_tasks ts w1, r)
  | None => (w1, Raise (ValueError "deque.remove(x): x not in deque"))
  end.

(** The [while len(self.tasks)] loop of [process_response_tasks]; every
    turn that goes on has removed one unit, so [length (tasks w)] turns of
    fuel are enough ([process_response_tasks_stops]). *)
Fixpoint process_response_tasks_loop (fuel : nat) (w : World)
  : World * Outcome unit :=
  match fuel with
  | O => (w, Return tt)
  | S fuel' =>
      match tasks w with
      | [] => (w, Return tt)
      | (name, tid) :: _ =>
          if task_done w tid then
            match process_response_task name tid w with
            | (w', Raise e) => (w', Raise e)
            | (w', Return _) => process_response_tasks_loop fuel' w'
            end
          else (w, Return tt)
      end
  end.

Definition process_response_tasks (w : World) : World * Outcome unit :=
  process_response_tasks_loop (length (tasks w)) w.

(** *** Incoming frames *)

(** [process_request]: create the task, append the unit to the deque,
    register the drain callback. The coroutine does not run before the loop
    takes over. *)
Definition process_request (name : string) (message : Message) (w : World)
  : World :=
  let tid := length (loop_tasks w) in
  let task := {| task_name := name; task_message := message;
                 task_coro := Created;
                 task_callbacks := [drain_callback] |} in
  set_tasks (tasks w ++ [(name, tid)])
    (set_loop_tasks (loop_tasks w ++ [task]) w).

(** The [while len(self.buffer)] loop of [data_received]. The second
    component lists the payloads handed to the request parser, in order.
    Every turn that goes on has consumed at least the prefix byte, so
    [length (buffer w)] turns of fuel are enough
    ([data_received_loop_spec]). *)
Fixpoint data_received_loop (fuel : nat) (w : World) (extracted : list bytes)
  : World * list bytes * Outcome unit :=
  match fuel with
  | O => (w, extracted, Return tt)
  | S fuel' =>
      match buffer w with
      | [] => (w, extracted, Return tt)
      | _ :: _ =>
          match decode_varint (buffer w) 0 with
          | Raise e => (w, extracted, Raise e)
          | Return (result, pos) =>
              let len := N.shiftr result 1 in
              if (N.of_nat pos + len <=? N.of_nat (length (buffer w)))%N then
                let data := take (N.to_nat len) (drop pos (buffer w)) in
                let w1 := set_buffer (drop (pos + N.to_nat len) (buffer w)) w in
                match parse_request data with
                | Raise e => (w1, extracted ++ [data], Raise e)
                | Return (name, message) =>
                    data_received_loop fuel'
                      (process_request name message w1) (extracted ++ [data])
                end
              else (w, extracted, Return tt)
          end
      end
  end.

Definition data_received (data : bytes) (w : World)
  : World * list bytes * Outcome unit :=
  let w0 := set_buffer (buffer w ++ data) w in
  data_received_loop (length (buffer w0)) w0 [].

(** Successive [data_received] calls; the transport stops delivering at the
    first one that raises. *)
Fixpoint feed (fragments : list bytes) (w : World)
  : World * list bytes * Outcome unit :=
  match fragments with
  | [] => (w, [], Return tt)
  | data :: fragments' =>
      match data_received data w with
      | (w', got, Raise e) => (w', got, Raise e)
      | (w', got, Return _) =>
          let '(w'', got', r) := feed fragments' w' in
          (w'', got ++ got', r)
      end
  end.

(** *** The coroutine [async_response]

    The coroutine suspends where it awaits a collaborator: the factory
    (lines 79-88) and the handler operation (line 102). It is cut at these
    two points; the loop resumes it with what the collaborator returned or
    raised. Log calls are left out. *)

(** Lines 103-110, from the [response] the handler gave (or [None]) to the
    end of the coroutine. *)
Definition async_response_reply (name : string) (message : Message)
    (response : option Message) : Outcome Message :=
  let response :=
    match response with
    | Some r => Return (Some r)
    | None =>
        if decide (name = "echo") then
          match message_attr message with
          | Raise e => Raise e
          | Return m => Return (Some (ResponseEcho m))
          end
        else if decide (name = "flush") then Return (Some ResponseFlush)
        else Return None
    end in
  match response with
  | Raise e => Raise e
  | Return None => Raise (not_implemented name)
  | Return (Some r) => Return r
  end.

(** Lines 98-102: look the operation up on the bound handler and await it,
    or go on without a response. *)
Definition async_response_dispatch (name : string) (message : Message)
    (w : World) : Coro :=
  match handler w with
  | Some h =>
      if decide (name ∈ methods h) then AwaitHandler
      else Finished (async_response_reply name message None)
  | None => Finished (async_response_reply name message None)
  end.

(** Lines 77-89, the coroutine from its start: while no handler is bound, a
    categorised name awaits the factory. *)
Definition async_response (name : string) (message : Message) (w : World)
  : Coro :=
  match handler w with
  | None =>
      match handler_class_of name with
      | Some cls => AwaitFactory cls
      | None => async_response_dispatch name message w
      end
  | Some _ => async_response_dispatch name message w
  end.

(** The factory call returns: [self.handler = ...] and on to the dispatch;
    its failure ends the coroutine (the await is outside the [try]). *)
Definition async_response_bound (name : string) (message : Message)
    (r : Outcome Handler) (w : World) : World * Coro :=
  match r with
  | Raise e => (w, Finished (Raise e))
  | Return h =>
      let w' := set_handler (Some h) w in
      (w', async_response_dispatch name message w')
  end.

(** The handler operation returns or raises; [except: ...; raise] passes
    its exception on. *)
Definition async_response_handled (name : string) (message : Message)
    (r : Outcome (option Message)) : Coro :=
  match r with
  | Raise e => Finished (Raise e)
  | Return response => Finished (async_response_reply name message response)
  end.

(** *** Lifecycle *)

Definition connection_made (w : World) : World :=
  set_connections ({[self]} ∪ connections w) w.

(** [connection_lost]: the task for [close()] and its done-callback. *)
Definition connection_lost (exc : option PyExc) (w : World) : World :=
  let exc := default (ConnectionResetError "Connection reset") exc in
  set_close_tasks
    (close_tasks w ++ [{| close_exc := exc; close_coro := CloseCreated;
                          close_callbacks := [discard_callback] |}]) w.

(** [asyncio.Task.set_exception]: a task refuses it (asyncio/tasks.py). *)
Definition task_set_exception (tid : nat) (exc : PyExc) : Outcome unit :=
  Raise (RuntimeError "Task does not support set_exception operation").

(** [[task.set_exception(exc) for _, task in self.tasks]]. *)
Fixpoint set_exceptions (d : list (string * nat)) (exc : PyExc)
  : Outcome unit :=
  match d with
  | [] => Return tt
  | (_, tid) :: d' =>
      match task_set_exception tid exc with
      | Raise e => Raise e
      | Return _ => set_exceptions d' exc
      end
  end.

(** The coroutine [close]: the comprehension, then [gather], which is done
    at once when there is no task to wait for; the comprehension gets past
    no other deque. *)
Definition close (exc : PyExc) (w : World) : CloseCoro :=
  match set_exceptions (tasks w) exc with
  | Raise e => CloseFinished (Raise e)
  | Return _ =>
      match tasks w with
      | [] => CloseFinished (Return tt)
      | _ :: _ => CloseAwaitGather
      end
  end.

(** *** The event loop *)

(** The loop calls a done-callback with the finished task as its one
    argument; a lambda of another arity raises TypeError before its body
    runs. *)
Definition call_callback (cb : Callback) (nargs : nat) (w : World)
  : World * Outcome unit :=
  if decide (arity cb = nargs) then
    match action cb with
    | ProcessResponseTasks => process_response_tasks w
    | DiscardConnection =>
        (set_connections (connections w ∖ {[self]}) w, Return tt)
    end
  else (w, Raise (TypeError "<lambda>() got an unexpected number of positional arguments")).

(** An exception that leaves a callback or [data_received] goes to the
    loop's exception handler. *)
Definition report (r : Outcome unit) (w : World) : World :=
  match r with
  | Raise e => set_loop_errors (loop_errors w ++ [e]) w
  | Return _ => w
  end.

(** What the loop and the transport can do to the connection. *)
Inductive Event :=
| EvData (data : bytes)
| EvLost (exc : option PyExc)
| EvStart (tid : nat)
| EvFactory (tid : nat) (r : Outcome Handler)
| EvHandler (tid : nat) (r : Outcome (option Message))
| EvCallback (tid : nat)
| EvCloseStart (cid : nat)
| EvCloseCallback (cid : nat).

Definition update_task (tid : nat) (f : Task -> Task) (w : World) : World :=
  match loop_tasks w !! tid with
  | Some t => set_loop_tasks (<[tid := f t]> (loop_tasks w)) w
  | None => w
  end.

(** One event; an event that cannot happen in the current state (a task
    resumed where it does not wait, a callback that already ran) leaves the
    world as it is. *)
Definition step (ev : Event) (w : World) : World :=
  match ev with
  | EvData data =>
      let '(w', _, r) := data_received data w in report r w'
  | EvLost exc => connection_lost exc w
  | EvStart tid =>
      match loop_tasks w !! tid with
      | Some {| task_name := name; task_message := message;
                task_coro := Created |} =>
          update_task tid (set_coro (async_response name message w)) w
      | _ => w
      end
  | EvFactory tid r =>
      match loop_tasks w !! tid with
      | Some {| task_name := name; task_message := message;
                task_coro := AwaitFactory _ |} =>
          let '(w', c) := async_response_bound name message r w in
          update_task tid (set_coro c) w'
      | _ => w
      end
  | EvHandler tid r =>
      match loop_tasks w !! tid with
      | Some {| task_name := name; task_message := message;
                task_coro := AwaitHandler |} =>
          update_task tid (set_coro (async_response_handled name message r)) w
      | _ => w
      end
  | EvCallback tid =>
      match loop_tasks w !! tid with
      | Some {| task_coro := Finished _; task_callbacks := cb :: cbs |} =>
          let w1 := update_task tid (set_callbacks cbs) w in
          let '(w2, r) := call_callback cb 1 w1 in
          report r w2
      | _ => w
      end
  | EvCloseStart cid =>
      match close_tasks w !! cid with
      | Some {| close_exc := exc; close_coro := CloseCreated;
                close_callbacks := cbs |} =>
          set_close_tasks
            (<[cid := {| close_exc := exc; close_coro := close exc w;
                         close_callbacks := cbs |}]> (close_tasks w)) w
      | _ => w
      end
  | EvCloseCallback cid =>
      match close_tasks w !! cid with
      | Some {| close_exc := exc; close_coro := CloseFinished r0;
                close_callbacks := cb :: cbs |} =>
          let w1 :=
            set_close_tasks
              (<[cid := {| close_exc := exc; close_coro := CloseFinished r0;
                           close_callbacks := cbs |}]> (close_tasks w)) w in
          let '(w2, r) := call_callback cb 1 w1 in
          report r w2
      | _ => w
      end
  end.

Definition run (evs : list Event) (w : World) : World :=
  foldl (fun w ev => step ev w) w evs.

(** The connection as accepted: [__init__], then [connection_made]. *)
Definition accepted : World := connection_made (new_protocol ∅).

(** The units ever enqueued, in the order [process_request] made them. *)
Definition enqueued (w : World) : list (string * nat) :=
  imap (fun tid t => (task_name t, tid)) (loop_tasks w).

(** What draining a unit puts on the transport: the two writes of
    [process_response] for a result that serialises, nothing for a unit
    that failed. *)
Definition frames_of (w : World) (unit : string * nat) : list bytes :=
  match loop_tasks w !! unit.2 with
  | Some {| task_coro := Finished (Return m) |} =>
      match serialize_response unit.1 m with
      | Return data =>
          [encode_varint (N.shiftl (N.of_nat (length data)) 1); data]
      | Raise _ => []
      end
  | _ => []
  end.

End Engine.

(** ** Predicates on frames *)

(** [framed prefixes payloads]: each prefix is a complete varint that
    announces the length of its payload. *)
Definition framed (prefixes payloads : list bytes) : Prop :=
  Forall2 (fun p d => exists v, decode_varint p 0 = Return (v, length p) /\
                                 N.shiftr v 1 = N.of_nat (length d))
    prefixes payloads.

(** What [data_received] leaves behind when it returns: nothing, or a frame
    whose announced payload has not arrived in full. *)
Definition partial_frame (b : bytes) : Prop :=
  b = [] \/
  exists v pos, decode_varint b 0 = Return (v, pos) /\
                (N.of_nat (length b) < N.of_nat pos + N.shiftr v 1)%N.

(** One frame around [payload], the bytes the two writes of
    [process_response] put on the wire. *)
Definition frame (payload : bytes) : bytes :=
  encode_varint (N.shiftl (N.of_nat (length payload)) 1) ++ payload.

(** ** A sample application

    A toy wire schema and two handlers, to run the engine on concrete
    traffic: the first payload byte selects the request variant. *)
Module Sample.

Definition parse_request (data : bytes) : Outcome (string * Message) :=
  match data with
  | [] => Return ("", OtherMessage "" [])
  | x01 :: body => Return ("echo", RequestEcho (String.string_of_list_byte body))
  | x02 :: _ => Return ("flush", OtherMessage "flush" [])
  | x03 :: body => Return ("info", OtherMessage "info" body)
  | x04 :: body => Return ("deliver_tx", OtherMessage "deliver_tx" body)
  | x05 :: body => Return ("query", OtherMessage "query" body)
  | _ => Raise (External "corrupt request")
  end.

Definition serialize_response (name : string) (message : Message)
  : Outcome bytes :=
  match message with
  | ResponseEcho m => Return (x01 :: String.list_byte_of_string m)
  | ResponseFlush => Return [x02]
  | OtherMessage _ body => Return (x03 :: body)
  | RequestEcho _ => Raise (TypeError "not a response")
  end.

Definition self : nat := 7.

Definition info_handler : Handler :=
  {| ident := 1; methods := ["info"; "set_option"; "query"] |}.

Definition consensus_handler : Handler :=
  {| ident := 2;
     methods := ["init_chain"; "begin_block"; "deliver_tx"; "end_block";
                 "commit"] |}.

Definition step := step parse_request serialize_response self.
Definition run := run parse_request serialize_response self.
Definition feed := feed parse_request.
Definition data_received := data_received parse_request.
Definition accepted := accepted self.

(** An info request with a 63-byte body: 64 bytes of payload, so a
    two-byte length prefix. *)
Definition long_info : bytes := x03 :: replicate 63 x00.

(** One echo request received, its task not yet run. *)
Definition echo_received : World := run [EvData (frame [x01; x41; x42])] accepted.

Definition echo_task : Task :=
  {| task_name := "echo"; task_message := RequestEcho "AB";
     task_coro := Created; task_callbacks := [drain_callback] |}.

(** One info request received, its task not yet run. *)
Definition info_received : World := run [EvData (frame [x03])] accepted.

Definition info_task : Task :=
  {| task_name := "info"; task_message := OtherMessage "info" [];
     task_coro := Created; task_callbacks := [drain_callback] |}.

(** The info request bound the info handler and waits in its operation. *)
Definition info_in_handler : World :=
  run [EvStart 0; EvFactory 0 (Return info_handler)] info_received.

(** A request without a variant: its task ran and found no operation. *)
Definition unknown_failed : World := run [EvData (frame []); EvStart 0] accepted.

(** An info and a deliver_tx request arrive in one read; both tasks start
    before the factory has answered either. *)
Definition both_waiting : World :=
  run [EvData (frame [x03] ++ frame [x04]); EvStart 0; EvStart 1] accepted.

(** Three requests on a bound handler, all waiting in their operations. *)
Definition pipelined : World :=
  run [EvData (frame [x03] ++ frame [x05] ++ frame [x03]); EvStart 0;
       EvFactory 0 (Return info_handler); EvStart 1; EvStart 2] accepted.

Definition reply (b : byte) : Outcome (option Message) :=
  Return (Some (OtherMessage "reply" [b])).

(** The transport drops while the info request still waits in its handler
    operation; the teardown task and its callback run. *)
Definition torn_down : World :=
  run [EvLost None; EvCloseStart 0; EvCloseCallback 0] info_in_handler.

End Sample.

(** ** Predicates on worlds *)

(** [w'] differs from [w] at most in the pending deque and in what was
    written. *)
Definition same_but_queue (w w' : World) : Prop :=
  buffer w' = buffer w /\ handler w' = handler w /\
  loop_tasks w' = loop_tasks w /\ close_tasks w' = close_tasks w /\
  connections w' = connections w /\ loop_errors w' = loop_errors w.

(** Every unit before position [k] of the enqueue order has been drained:
    the deque holds the units from [k] on, the transport holds the frames of
    the units before [k], in that order, and those units are done. *)
Definition drained_upto (serialize_response : string -> Message -> Outcome bytes)
    (k : nat) (w : World) : Prop :=
  k <= length (loop_tasks w) /\
  tasks w = drop k (enqueued w) /\
  transport w =
    concat (map (frames_of serialize_response w) (take k (enqueued w))) /\
  forall i, i < k -> task_done w i = true.

(** The callbacks a reachable world holds: the drain callback on request
    tasks, the discard callback on teardown tasks. *)
Definition callbacks_ok (w : World) : Prop :=
  Forall (fun t => Forall (fun cb => cb = drain_callback) (task_callbacks t))
    (loop_tasks w) /\
  Forall (fun c => Forall (fun cb => cb = discard_callback) (close_callbacks c))
    (close_tasks w).

(** A task waits for the factory only with the class its name selects, and a
    handler is bound only if some request carried a categorised name. *)
Definition binding_ok (w : World) : Prop :=
  Forall (fun t => forall cls, task_coro t = AwaitFactory cls ->
                               handler_class_of (task_name t) = Some cls)
    (loop_tasks w) /\
  (forall h, handler w = Some h ->
             Exists (fun t => is_Some (handler_class_of (task_name t)))
               (loop_tasks w)).

(** [w'] is [w] with the request tasks [new] created and enqueued, and
    possibly another buffer. *)
Definition grown_by (new : list Task) (w w' : World) : Prop :=
  handler w' = handler w /\ transport w' = transport w /\
  close_tasks w' = close_tasks w /\ connections w' = connections w /\
  loop_errors w' = loop_errors w /\
  loop_tasks w' = loop_tasks w ++ new /\
  tasks w' =
    tasks w ++ imap (fun i t => (task_name t, length (loop_tasks w) + i)) new /\
  Forall (fun t => task_coro t = Created /\
                   task_callbacks t = [drain_callback]) new.

(** Every task of [w] is still there in [w'] under the same name, and a
    finished one has kept its outcome. *)
Definition persists (w w' : World) : Prop :=
  forall i t, loop_tasks w !! i = Some t ->
    exists t', loop_tasks w' !! i = Some t' /\ task_name t' = task_name t /\
               forall r, task_coro t = Finished r -> task_coro t' = Finished r.

(** No fragment ends inside a length prefix of [plen] bytes: after each
    fragment the bytes held ([have] before the first) are none, or at least
    the whole prefix. *)
Fixpoint no_cut_in_prefix (plen have : nat) (fragments : list bytes) : Prop :=
  match fragments with
  | [] => True
  | data :: fragments' =>
      let have' := have + length data in
      (have' = 0 \/ plen <= have') /\ no_cut_in_prefix plen have' fragments'
  end.

(** No request task is suspended in the factory call. *)
Definition no_bind_pending (w : World) : Prop :=
  Forall (fun t => forall cls, task_coro t <> AwaitFactory cls) (loop_tasks w).


(** ** Predicates for the further properties *)

(** The request task [t] is what the parser made of the payload [d]. *)
Definition parsed_as (parse_request : bytes -> Outcome (string * Message))
    (d : bytes) (t : Task) : Prop :=
  parse_request d = Return (task_name t, task_message t).

(** The two writes of [process_response] for the serialised response
    [data]. *)
Definition frame_writes (data : bytes) : list bytes :=
  [encode_varint (N.shiftl (N.of_nat (length data)) 1); data].

(** The second write of every pair of writes: the serialised responses. *)
Fixpoint payload_writes (writes : list bytes) : list bytes :=
  match writes with
  | _ :: data :: writes' => data :: payload_writes writes'
  | _ => []
  end.


(** ** More sample traffic *)
Module Traffic.

(** A request without a variant and an echo request arrive together; the
    echo task runs first and its callback finds the head still pending, then
    the head task runs and fails. The echo unit is done, behind a failed
    head. *)
Definition failed_head : World :=
  Sample.run [EvData (frame [] ++ frame [x01; x41]); EvStart 1; EvCallback 1;
              EvStart 0] Sample.accepted.

Definition failed_task : Task :=
  {| task_name := ""; task_message := OtherMessage "" [];
     task_coro := Finished (Raise (not_implemented ""));
     task_callbacks := [drain_callback] |}.

(** The info handler's operation answers with something that is not a
    response. *)
Definition bad_answer : World :=
  Sample.step (EvHandler 0 (Return (Some (RequestEcho "x"))))
    Sample.info_in_handler.

(** The info handler's operation answers. *)
Definition answered : World :=
  Sample.step (EvHandler 0 (Sample.reply x0a)) Sample.info_in_handler.

Definition answered_task : Task :=
  {| task_name := "info"; task_message := OtherMessage "info" [];
     task_coro := Finished (Return (OtherMessage "reply" [x0a]));
     task_callbacks := [drain_callback] |}.



(** The info request waits for the factory. *)
Definition info_waiting : World := Sample.step (EvStart 0) Sample.info_received.

(** The events of [Sample.pipelined], then the three answers out of order. *)
Definition pipelined_events : list Event :=
  [EvData (frame [x03] ++ frame [x05] ++ frame [x03]); EvStart 0;
   EvFactory 0 (Return Sample.info_handler); EvStart 1; EvStart 2;
   EvHandler 2 (Sample.reply x0c); EvCallback 2;
   EvHandler 1 (Sample.reply x0b); EvCallback 1;
   EvHandler 0 (Sample.reply x0a); EvCallback 0].

End Traffic.


(** * Properties *)

(** ** The frame codec *)

Lemma decode_loop_span rest result shift pos v q :
  decode_loop rest result shift pos = Return (v, q) ->
  exists n, q = pos + n /\ 1 <= n <= length rest /\
            decode_loop (take n rest) result shift pos = Return (v, q).
Proof.
  revert result shift pos.
  induction rest as [|b rest IH]; intros result shift pos H; cbn [decode_loop] in H.
  - discriminate.
  - destruct (N.land (int_of_byte b) 128 =? 0)%N eqn:Hb.
    + injection H as <- <-. exists 1. cbn [take decode_loop length].
      rewrite Hb. repeat split; lia.
    + destruct (64 <=? shift + 7)%N eqn:Hs; [discriminate|].
      apply IH in H as (n & -> & Hn & Hd). exists (S n).
      cbn [take decode_loop length]. rewrite Hb, Hs.
      repeat split; try lia. exact Hd.
Qed.

Lemma decode_varint_span buffer v pos :
  decode_varint buffer 0 = Return (v, pos) ->
  1 <= pos <= length buffer /\
  decode_varint (take pos buffer) 0 = Return (v, pos).
Proof.
  unfold decode_varint. rewrite !drop_0. intros H.
  apply decode_loop_span in H as (n & -> & Hn & Hd). split; [lia|exact Hd].
Qed.

Section FramingFacts.

Variable parse_request : bytes -> Outcome (string * Message).

Lemma data_received_loop_spec fuel : forall w acc w' got r,
  length (buffer w) <= fuel ->
  data_received_loop parse_request fuel w acc = (w', got, r) ->
  exists prefixes new,
    got = acc ++ new /\ framed prefixes new /\
    buffer w = concat (zip_with app prefixes new) ++ buffer w' /\
    (r = Return tt -> partial_frame (buffer w')).
Proof.
  induction fuel as [|fuel IH]; intros w acc w' got r Hlen H;
    cbn [data_received_loop] in H.
  - injection H as <- <- <-. exists [], []. rewrite app_nil_r.
    repeat split; [constructor|].
    intros _. left. destruct (buffer w); [done|simpl in Hlen; lia].
  - destruct (buffer w) as [|b0 buf0] eqn:Hbuf.
    { injection H as <- <- <-. exists [], []. rewrite app_nil_r, Hbuf.
      repeat split; [constructor|]. intros _. by left. }
    rewrite <- Hbuf in *. clear b0 buf0 Hbuf.
    destruct (decode_varint (buffer w) 0) as [e|[v pos]] eqn:Hdec.
    { injection H as <- <- <-. exists [], []. rewrite app_nil_r.
      repeat split; [constructor|]. discriminate. }
    destruct (decode_varint_span _ _ _ Hdec) as [Hpos Hpre].
    destruct (N.of_nat pos + N.shiftr v 1 <=? N.of_nat (length (buffer w)))%N
      eqn:Hfit.
    2:{ injection H as <- <- <-. exists [], []. rewrite app_nil_r.
        repeat split; [constructor|]. intros _. right. exists v, pos.
        split; [done|]. apply N.leb_gt in Hfit. exact Hfit. }
    apply N.leb_le in Hfit.
    set (len := N.to_nat (N.shiftr v 1)) in *.
    assert (Hl : pos + len <= length (buffer w)) by (subst len; lia).
    assert (Hframe : framed [take pos (buffer w)]
                            [take len (drop pos (buffer w))]).
    { constructor; [|constructor]. exists v.
      rewrite length_take, Nat.min_l by lia. split; [done|].
      rewrite length_take, length_drop, Nat.min_l by lia. subst len. lia. }
    assert (Hsplit : buffer w =
              take pos (buffer w) ++ take len (drop pos (buffer w)) ++
              drop (pos + len) (buffer w)).
    { rewrite <- drop_drop, take_drop, take_drop. done. }
    destruct (parse_request (take len (drop pos (buffer w))))
      as [e|[name message]] eqn:Hparse.
    { injection H as <- <- <-.
      exists [take pos (buffer w)], [take len (drop pos (buffer w))].
      repeat split; [done| |discriminate].
      cbn. rewrite app_nil_r, <- app_assoc. exact Hsplit. }
    apply IH in H as (prefixes & new & -> & Hfr & Hb & Hr).
    2:{ cbn. rewrite length_drop. lia. }
    exists (take pos (buffer w) :: prefixes),
           (take len (drop pos (buffer w)) :: new).
    rewrite <- app_assoc. repeat split; [|  |exact Hr].
    + constructor; [|exact Hfr]. inversion Hframe; subst; done.
    + cbn in Hb. cbn [zip_with concat]. rewrite <- !app_assoc, <- Hb.
      exact Hsplit.
Qed.

End FramingFacts.

Section Ingestion.

Variable parse_request : bytes -> Outcome (string * Message).

Lemma data_received_partial data w :
  partial_frame (buffer w ++ data) ->
  data_received parse_request data w =
    (set_buffer (buffer w ++ data) w, [], Return tt).
Proof.
  unfold data_received. cbn [buffer set_buffer].
  intros [Hnil | (v & pos & Hdec & Hshort)].
  - rewrite Hnil. reflexivity.
  - destruct (buffer w ++ data) as [|b0 rest] eqn:Hbuf; [reflexivity|].
    rewrite <- Hbuf in *. destruct (length (buffer w ++ data)) eqn:Hlen.
    { rewrite Hbuf in Hlen. discriminate. }
    cbn [data_received_loop buffer set_buffer]. rewrite Hbuf, <- Hbuf, Hdec.
    apply N.leb_gt in Hshort. rewrite <- Hlen in Hshort. rewrite Hshort.
    reflexivity.
Qed.

(** C5. After an ingestion the bytes held before it plus the bytes just
    received are the frames extracted during it (each a complete length
    prefix followed by the announced number of payload bytes, in the order
    extracted) followed by the buffer, whether the call returns or raises;
    when it returns, what remains is empty or an incomplete frame; and an
    incomplete frame is left in the buffer as it is, with nothing
    extracted. *)
Theorem buffer_is_unparsed_suffix data w :
  let '(w', got, r) := data_received parse_request data w in
  (exists prefixes,
      framed prefixes got /\
      buffer w ++ data = concat (zip_with app prefixes got) ++ buffer w') /\
  (r = Return tt -> partial_frame (buffer w')) /\
  (partial_frame (buffer w ++ data) ->
   got = [] /\ buffer w' = buffer w ++ data /\ r = Return tt).
Proof.
  destruct (data_received parse_request data w) as [[w' got] r] eqn:H.
  split; [|split].
  - unfold data_received in H.
    apply data_received_loop_spec in H as (prefixes & new & -> & Hfr & Hb & _);
      [|done].
    exists prefixes. split; [exact Hfr|exact Hb].
  - unfold data_received in H.
    apply data_received_loop_spec in H as (_ & _ & _ & _ & _ & Hr); [|done].
    exact Hr.
  - intros Hp. rewrite (data_received_partial _ _ Hp) in H.
    injection H as <- <- <-. done.
Qed.

(** X18. Over any sequence of ingestions that all return, the bytes held at
    the start followed by all fragments received are the frames extracted, in
    order, followed by the buffer at the end: no received byte is lost,
    duplicated or reordered between calls. *)
Lemma feed_is_unparsed_suffix fragments : forall w w' got,
  feed parse_request fragments w = (w', got, Return tt) ->
  exists prefixes,
    framed prefixes got /\
    buffer w ++ concat fragments =
      concat (zip_with app prefixes got) ++ buffer w'.
Proof.
  induction fragments as [|data fragments IH]; intros w w' got H;
    cbn [feed] in H.
  - injection H as <- <-. exists []. split; [constructor|].
    cbn. by rewrite app_nil_r.
  - pose proof (buffer_is_unparsed_suffix data w) as Hone.
    destruct (data_received parse_request data w) as [[w1 got1] [e|[]]];
      [discriminate|].
    destruct Hone as [(p1 & Hf1 & Hb1) _].
    destruct (feed parse_request fragments w1) as [[w2 got2] r2] eqn:Hrest.
    injection H as <- <- ->.
    apply IH in Hrest as (p2 & Hf2 & Hb2).
    exists (p1 ++ p2). split; [by apply Forall2_app|].
    rewrite zip_with_app by (by eapply Forall2_length).
    rewrite concat_app, <- app_assoc, <- Hb2.
    cbn [concat]. rewrite app_assoc, Hb1, <- app_assoc. done.
Qed.

End Ingestion.

(** ** Round trip of the codec *)

Lemma byte_of_int_inv n : (n < 256)%N -> int_of_byte (byte_of_int n) = n.
Proof.
  intros Hn. unfold byte_of_int, int_of_byte.
  destruct (Byte.of_N n) as [b|] eqn:Hb.
  - by apply Byte.to_of_N.
  - apply Byte.of_N_None_iff in Hb. lia.
Qed.

(** Seven low bits and the rest put a number together again. *)
Lemma split_low7 v : N.lor (N.shiftl (N.shiftr v 7) 7) (N.land v 127) = v.
Proof.
  apply N.bits_inj. intros i. rewrite N.lor_spec, N.land_spec.
  change 127%N with (N.ones 7).
  destruct (N.lt_ge_cases i 7) as [Hi|Hi].
  - rewrite N.shiftl_spec_low, N.ones_spec_low by done. cbn.
    by rewrite andb_true_r.
  - rewrite N.shiftl_spec_high', N.shiftr_spec', N.ones_spec_high by done.
    rewrite andb_false_r, orb_false_r. f_equal. lia.
Qed.

Lemma land_low7_bound v : (N.land v 127 < 128)%N.
Proof.
  change 127%N with (N.ones 7). rewrite N.land_ones.
  apply N.mod_lt. done.
Qed.

(** The two bytes the encoder can write for seven payload bits, read back
    the way the decoder reads them. *)
Lemma low_byte_decodes bits :
  (bits < 128)%N ->
  N.land (int_of_byte (byte_of_int bits)) 127 = bits /\
  (N.land (int_of_byte (byte_of_int bits)) 128 =? 0)%N = true /\
  N.land (int_of_byte (byte_of_int (N.lor 128 bits))) 127 = bits /\
  (N.land (int_of_byte (byte_of_int (N.lor 128 bits))) 128 =? 0)%N = false.
Proof.
  intros Hb. destruct bits as [|p]; [by vm_compute|].
  do 7 (destruct p as [p|p|]; try (by vm_compute)); lia.
Qed.

Lemma encode_loop_acc fuel : forall value bits b,
  encode_loop fuel value bits b = b ++ encode_loop fuel value bits [].
Proof.
  induction fuel as [|fuel IH]; intros value bits b; cbn [encode_loop];
    [done|].
  destruct (value =? 0)%N; [done|].
  rewrite IH, (IH _ _ ([] ++ _)). by rewrite <- app_assoc.
Qed.

(** Decoding what the encoder's loop wrote, from the [j]-th byte of a
    varint on: the fuel covers the bits of [value], and [value] fits in the
    bytes the decoder still accepts. *)
Lemma decode_encode_loop fuel : forall value bits result j pos rest,
  (bits < 128)%N -> (value < 2 ^ N.of_nat fuel)%N ->
  j <= 9 -> (value < 2 ^ (7 * N.of_nat (9 - j)))%N ->
  decode_loop (encode_loop fuel value bits [] ++ rest) result
    (7 * N.of_nat j) pos =
  Return (N.lor result
            (N.shiftl (N.lor (N.shiftl value 7) bits) (7 * N.of_nat j)),
          pos + length (encode_loop fuel value bits [])).
Proof.
  induction fuel as [|fuel IH]; intros value bits result j pos rest Hb Hf Hj Hv.
  - assert (value = 0%N) as -> by (cbn in Hf; lia).
    cbn [encode_loop app decode_loop length].
    destruct (low_byte_decodes bits Hb) as (-> & -> & _).
    rewrite N.shiftl_0_l, N.lor_0_l. do 2 f_equal. lia.
  - cbn [encode_loop]. destruct (value =? 0)%N eqn:Hz.
    + apply N.eqb_eq in Hz. subst value.
      cbn [app decode_loop length].
      destruct (low_byte_decodes bits Hb) as (-> & -> & _).
      rewrite N.shiftl_0_l, N.lor_0_l. do 2 f_equal. lia.
    + apply N.eqb_neq in Hz. rewrite encode_loop_acc.
      cbn [app decode_loop length].
      destruct (low_byte_decodes bits Hb) as (_ & _ & -> & ->).
      assert (Hj' : j < 9).
      { destruct (decide (j < 9)); [done|]. exfalso.
        replace (9 - j) with 0 in Hv by lia. cbn in Hv. lia. }
      assert (Hshift : (7 * N.of_nat j + 7 = 7 * N.of_nat (S j))%N) by lia.
      rewrite Hshift.
      assert ((64 <=? 7 * N.of_nat (S j))%N = false) as ->
        by (apply N.leb_gt; lia).
      rewrite IH.
      * rewrite split_low7. f_equal. f_equal.
        -- rewrite N.shiftl_lor, N.shiftl_shiftl, <- N.lor_assoc.
           f_equal. rewrite N.lor_comm. f_equal. f_equal. lia.
        -- lia.
      * apply land_low7_bound.
      * rewrite N.shiftr_div_pow2. apply N.Div0.div_lt_upper_bound.
        replace (N.of_nat (S fuel)) with (N.succ (N.of_nat fuel)) in Hf by lia.
        rewrite N.pow_succ_r' in Hf. change (2 ^ 7)%N with 128%N. lia.
      * lia.
      * rewrite N.shiftr_div_pow2. apply N.Div0.div_lt_upper_bound.
        rewrite <- N.pow_add_r.
        replace (7 + 7 * N.of_nat (9 - S j))%N with (7 * N.of_nat (9 - j))%N
          by lia.
        done.
Qed.

(** The decoder reads back every varint the encoder writes for a value
    below [2^70], wherever the varint is followed by more bytes. *)
Lemma decode_encode_varint value rest :
  (value < 2 ^ 70)%N ->
  decode_varint (encode_varint value ++ rest) 0 =
    Return (value, length (encode_varint value)).
Proof.
  intros Hv. unfold decode_varint, encode_varint. rewrite drop_0.
  change 0%N with (7 * N.of_nat 0)%N at 2.
  rewrite decode_encode_loop.
  - rewrite N.lor_0_l, split_low7. cbn. by rewrite N.shiftl_0_r.
  - apply land_low7_bound.
  - rewrite N2Nat.id. apply N.size_gt.
  - lia.
  - rewrite N.shiftr_div_pow2. apply N.Div0.div_lt_upper_bound.
    change (2 ^ 7 * 2 ^ (7 * N.of_nat (9 - 0)))%N with (2 ^ 70)%N. done.
Qed.

Lemma encode_loop_fuel fuel : forall fuel' value bits b,
  (value < 2 ^ N.of_nat fuel)%N -> fuel <= fuel' ->
  encode_loop fuel' value bits b = encode_loop fuel value bits b.
Proof.
  induction fuel as [|fuel IH]; intros fuel' value bits b Hv Hle.
  - assert (value = 0%N) as -> by (cbn in Hv; lia). by destruct fuel'.
  - destruct fuel' as [|fuel']; [lia|]. cbn [encode_loop].
    destruct (value =? 0)%N eqn:Hz; [done|]. apply IH; [|lia].
    rewrite N.shiftr_div_pow2. apply N.Div0.div_lt_upper_bound.
    replace (N.of_nat (S fuel)) with (N.succ (N.of_nat fuel)) in Hv by lia.
    rewrite N.pow_succ_r' in Hv. change (2 ^ 7)%N with 128%N. lia.
Qed.

Lemma length_frame payload :
  length (frame payload) =
    length (encode_varint (N.shiftl (N.of_nat (length payload)) 1)) +
    length payload.
Proof. unfold frame. by rewrite length_app. Qed.

Lemma payload_length_fits (payload : bytes) :
  (N.of_nat (length payload) < 2 ^ 69)%N ->
  (N.shiftl (N.of_nat (length payload)) 1 < 2 ^ 70)%N.
Proof.
  intros H. rewrite N.shiftl_mul_pow2. change (2 ^ 70)%N with (2 ^ 69 * 2)%N.
  change (2 ^ 1)%N with 2%N. lia.
Qed.

Lemma decode_frame_prefix (payload : bytes) rest :
  (N.of_nat (length payload) < 2 ^ 69)%N ->
  decode_varint
    (encode_varint (N.shiftl (N.of_nat (length payload)) 1) ++ rest) 0 =
  Return (N.shiftl (N.of_nat (length payload)) 1,
          length (encode_varint (N.shiftl (N.of_nat (length payload)) 1))).
Proof. intros H. by apply decode_encode_varint, payload_length_fits. Qed.

Lemma encode_varint_nonempty value :
  (value < 2 ^ 70)%N -> 1 <= length (encode_varint value).
Proof.
  intros Hv. pose proof (decode_encode_varint value [] Hv) as H.
  apply decode_varint_span in H as [H _]. lia.
Qed.

Section RoundTrip.

Variable parse_request : bytes -> Outcome (string * Message).

Lemma data_received_loop_empty fuel w acc :
  buffer w = [] ->
  data_received_loop parse_request fuel w acc = (w, acc, Return tt).
Proof. intros H. destruct fuel; cbn [data_received_loop]; by rewrite ?H. Qed.

Lemma data_received_loop_unfold fuel w acc :
  buffer w <> [] ->
  data_received_loop parse_request (S fuel) w acc =
    match decode_varint (buffer w) 0 with
    | Raise e => (w, acc, Raise e)
    | Return (result, pos) =>
        let len := N.shiftr result 1 in
        if (N.of_nat pos + len <=? N.of_nat (length (buffer w)))%N then
          let data := take (N.to_nat len) (drop pos (buffer w)) in
          let w1 := set_buffer (drop (pos + N.to_nat len) (buffer w)) w in
          match parse_request data with
          | Raise e => (w1, acc ++ [data], Raise e)
          | Return (name, message) =>
              data_received_loop parse_request fuel
                (process_request name message w1) (acc ++ [data])
          end
        else (w, acc, Return tt)
    end.
Proof. intros H. cbn [data_received_loop]. by destruct (buffer w). Qed.

(** The call that completes a frame in the buffer extracts its payload and
    leaves the buffer empty, whatever the parser then makes of it. *)
Lemma data_received_whole_frame payload data w :
  (N.of_nat (length payload) < 2 ^ 69)%N ->
  buffer w ++ data = frame payload ->
  let '(w', got, r) := data_received parse_request data w in
  got = [payload] /\ buffer w' = [] /\
  r = match parse_request payload with
      | Raise e => Raise e
      | Return _ => Return tt
      end.
Proof.
  intros Hlen Hbuf. unfold data_received. cbn [buffer set_buffer].
  rewrite Hbuf. clear Hbuf.
  set (P := encode_varint (N.shiftl (N.of_nat (length payload)) 1)).
  assert (HP : 1 <= length P)
    by (by apply encode_varint_nonempty, payload_length_fits).
  rewrite length_frame. fold P.
  replace (length P + length payload)
    with (S (length P + length payload - 1)) by lia.
  rewrite data_received_loop_unfold.
  2:{ cbn [buffer set_buffer]. intros HF.
      apply (f_equal (@length byte)) in HF. rewrite length_frame in HF.
      fold P in HF. cbn in HF. lia. }
  cbn [buffer set_buffer]. unfold frame at 1. fold P.
  unfold P at 1. rewrite decode_frame_prefix by done. fold P. cbn zeta.
  assert (Hshr : N.shiftr (N.shiftl (N.of_nat (length payload)) 1) 1 =
                 N.of_nat (length payload)).
  { by rewrite N.shiftr_shiftl_l, N.sub_diag, N.shiftl_0_r. }
  rewrite Hshr, Nat2N.id, length_frame. fold P.
  assert ((N.of_nat (length P) + N.of_nat (length payload) <=?
           N.of_nat (length P + length payload))%N = true) as ->
    by (apply N.leb_le; lia).
  unfold frame. fold P. rewrite drop_app_length, take_ge by done.
  assert (Hrest : drop (length P + length payload) (P ++ payload) = []).
  { apply drop_ge. rewrite length_app. lia. }
  rewrite Hrest.
  destruct (parse_request payload) as [e|[name message]]; [done|].
  rewrite data_received_loop_empty by done. done.
Qed.

(** Framing round trip, one call: the frame of any payload shorter than
    [2^69] bytes, received by a connection with an empty buffer, yields that
    payload and nothing else. *)
Lemma frame_round_trip payload w :
  (N.of_nat (length payload) < 2 ^ 69)%N -> buffer w = [] ->
  let '(w', got, r) := data_received parse_request (frame payload) w in
  got = [payload] /\ buffer w' = [] /\
  r = match parse_request payload with
      | Raise e => Raise e
      | Return _ => Return tt
      end.
Proof.
  intros Hlen Hw. apply data_received_whole_frame; [done|]. by rewrite Hw.
Qed.

Lemma feed_nothing fragments : forall w,
  concat fragments = [] -> buffer w = [] ->
  let '(w', got, r) := feed parse_request fragments w in
  got = [] /\ buffer w' = [] /\ r = Return tt.
Proof.
  induction fragments as [|data fragments IH]; intros w Hc Hw; cbn [feed];
    [done|].
  cbn [concat] in Hc. apply app_eq_nil in Hc as [-> Hc].
  rewrite (data_received_partial parse_request [] w)
    by (left; by rewrite Hw).
  specialize (IH (set_buffer (buffer w ++ []) w) Hc).
  destruct (feed parse_request fragments _) as [[w2 got2] r2].
  cbn [app]. apply IH. cbn. by rewrite Hw.
Qed.

(** X1. Framing round trip under fragmentation: the frame of a payload
    shorter than [2^69] bytes that the parser accepts, delivered in any
    fragments none of which ends inside the length prefix (empty fragments
    included), is extracted exactly once, by the call that completes it, and
    the buffer ends empty. *)
Lemma fragmented_frame_round_trip payload name message :
  (N.of_nat (length payload) < 2 ^ 69)%N ->
  parse_request payload = Return (name, message) ->
  forall fragments w,
    buffer w ++ concat fragments = frame payload ->
    length (buffer w) < length (frame payload) ->
    buffer w = [] \/
      length (encode_varint (N.shiftl (N.of_nat (length payload)) 1)) <=
        length (buffer w) ->
    no_cut_in_prefix
      (length (encode_varint (N.shiftl (N.of_nat (length payload)) 1)))
      (length (buffer w)) fragments ->
    let '(w', got, r) := feed parse_request fragments w in
    got = [payload] /\ buffer w' = [] /\ r = Return tt.
Proof.
  intros Hlen Hparse.
  set (P := encode_varint (N.shiftl (N.of_nat (length payload)) 1)).
  induction fragments as [|data fragments IH]; intros w Hall Hshort Hbuf Hcut.
  { cbn in Hall. rewrite app_nil_r in Hall. rewrite Hall in Hshort. lia. }
  cbn [concat] in Hall. rewrite app_assoc in Hall.
  cbn [no_cut_in_prefix] in Hcut. destruct Hcut as [Hhere Hcut].
  rewrite <- length_app in Hhere, Hcut.
  assert (Hle : length (buffer w ++ data) <= length (frame payload)).
  { rewrite <- Hall, (length_app (buffer w ++ data)). lia. }
  cbn [feed].
  destruct (decide (length (buffer w ++ data) = length (frame payload)))
    as [Heq|Hne].
  - assert (Hrest : concat fragments = []).
    { apply (f_equal (@length byte)) in Hall.
      rewrite (length_app (buffer w ++ data)) in Hall.
      apply nil_length_inv. lia. }
    rewrite Hrest, app_nil_r in Hall.
    pose proof (data_received_whole_frame payload data w Hlen Hall) as Hone.
    rewrite Hparse in Hone.
    destruct (data_received parse_request data w) as [[w1 got1] r1].
    destruct Hone as (-> & Hb1 & ->).
    pose proof (feed_nothing fragments w1 Hrest Hb1) as Htail.
    destruct (feed parse_request fragments w1) as [[w2 got2] r2].
    destruct Htail as (-> & ? & ->). done.
  - assert (Hpart : partial_frame (buffer w ++ data)).
    { destruct Hhere as [Hzero|Hpre].
      - left. by apply nil_length_inv.
      - right. exists (N.shiftl (N.of_nat (length payload)) 1), (length P).
        assert (Hsplit : buffer w ++ data =
                         P ++ drop (length P) (buffer w ++ data)).
        { rewrite <- (take_drop (length P) (buffer w ++ data)) at 1.
          f_equal.
          rewrite <- (take_app_le (buffer w ++ data) (concat fragments))
            by done.
          rewrite Hall. unfold frame. fold P. by rewrite take_app_length. }
        split.
        + rewrite Hsplit. by apply decode_frame_prefix.
        + rewrite N.shiftr_shiftl_l, N.sub_diag, N.shiftl_0_r by done.
          rewrite length_frame in Hle, Hne. fold P in Hle, Hne. lia. }
    rewrite (data_received_partial parse_request data w Hpart).
    specialize (IH (set_buffer (buffer w ++ data) w)).
    cbn [buffer set_buffer] in IH.
    specialize (IH Hall ltac:(lia)).
    destruct (feed parse_request fragments _) as [[w2 got2] r2].
    cbn [app]. apply IH; [|done].
    destruct Hhere as [Hzero|Hpre]; [left; by apply nil_length_inv|by right].
Qed.

End RoundTrip.

(** ** The ordered drain *)

Lemma deque_remove_head x d : deque_remove x (x :: d) = Some d.
Proof. cbn. by rewrite decide_True. Qed.

Lemma same_but_queue_refl w : same_but_queue w w.
Proof. by repeat split. Qed.

Lemma same_but_queue_trans w1 w2 w3 :
  same_but_queue w1 w2 -> same_but_queue w2 w3 -> same_but_queue w1 w3.
Proof.
  unfold same_but_queue. intros (?&?&?&?&?&?) (?&?&?&?&?&?).
  repeat split; congruence.
Qed.

Lemma enqueued_length w : length (enqueued w) = length (loop_tasks w).
Proof. unfold enqueued. by rewrite length_imap. Qed.

Lemma enqueued_lookup w i u :
  enqueued w !! i = Some u ->
  u.2 = i /\ exists t, loop_tasks w !! i = Some t /\ u.1 = task_name t.
Proof.
  unfold enqueued. rewrite list_lookup_imap.
  destruct (loop_tasks w !! i) as [t|]; cbn; [|discriminate].
  intros [= <-]. eauto.
Qed.

Lemma enqueued_NoDup w : NoDup (enqueued w).
Proof.
  apply NoDup_alt. intros i j u Hi Hj.
  apply enqueued_lookup in Hi as [Hi _]. apply enqueued_lookup in Hj as [Hj _].
  congruence.
Qed.

Section DrainFacts.

Variable parse_request : bytes -> Outcome (string * Message).
Variable serialize_response : string -> Message -> Outcome bytes.
Variable self : nat.

#[local] Abbreviation frames_of := (frames_of serialize_response).
#[local] Abbreviation process_response_task := (process_response_task serialize_response).
#[local] Abbreviation process_response_tasks_loop :=
  (process_response_tasks_loop serialize_response).
#[local] Abbreviation process_response_tasks := (process_response_tasks serialize_response).

(** Draining the head: the unit leaves the deque on every path, and the
    transport gains exactly its frames. *)
Lemma process_response_task_head name tid rest w :
  tasks w = (name, tid) :: rest ->
  let '(w', r) := process_response_task name tid w in
  same_but_queue w w' /\ tasks w' = rest /\
  (task_done w tid = true ->
   transport w' = transport w ++ frames_of w (name, tid)) /\
  (forall t e, loop_tasks w !! tid = Some t -> task_coro t = Finished (Raise e) ->
               r = Raise e /\ transport w' = transport w).
Proof.
  intros Hq. unfold process_response_task, frames_of, task_done, same_but_queue.
  cbn [fst snd].
  destruct (loop_tasks w !! tid) as [[n m c cbs]|] eqn:Ht.
  2:{ cbn [tasks]. rewrite Hq, deque_remove_head. by split_and!. }
  destruct c as [| | |[e|v]];
    try (cbn [tasks]; rewrite Hq, deque_remove_head; split_and!; try done;
         by intros ? ? [= <-]).
  - cbn [tasks]. rewrite Hq, deque_remove_head. split_and!; try done.
    + by rewrite app_nil_r.
    + by intros ? ? [= <-] [= <-].
  - unfold process_response.
    destruct (serialize_response name v) as [e|data]; cbn [tasks set_transport];
      rewrite Hq, deque_remove_head; split_and!; try done;
      try (by intros ? ? [= <-]).
    by rewrite app_nil_r.
Qed.

Lemma frames_of_same_tasks w w' u :
  loop_tasks w' = loop_tasks w -> frames_of w' u = frames_of w u.
Proof. unfold frames_of. by intros ->. Qed.

Lemma task_done_same_tasks w w' i :
  loop_tasks w' = loop_tasks w -> task_done w' i = task_done w i.
Proof. unfold task_done. by intros ->. Qed.

(** What one run of the drain loop does: it takes some number [k] of done
    units off the head of the deque and writes their frames in that order. *)
Lemma process_response_tasks_loop_effect fuel : forall w w' r,
  process_response_tasks_loop fuel w = (w', r) ->
  same_but_queue w w' /\
  exists k, k <= length (tasks w) /\ tasks w' = drop k (tasks w) /\
            transport w' =
              transport w ++ concat (map (frames_of w) (take k (tasks w))) /\
            Forall (fun u => task_done w u.2 = true) (take k (tasks w)).
Proof.
  induction fuel as [|fuel IH]; intros w w' r H;
    cbn [process_response_tasks_loop] in H.
  { injection H as <- <-. split; [apply same_but_queue_refl|].
    exists 0. rewrite take_0, drop_0. cbn. rewrite app_nil_r.
    split_and!; [lia|done|done|constructor]. }
  destruct (tasks w) as [|[name tid] rest] eqn:Hq.
  { injection H as <- <-. split; [apply same_but_queue_refl|].
    exists 0. rewrite Hq. cbn. rewrite app_nil_r.
    split_and!; [lia|done|done|constructor]. }
  destruct (task_done w tid) eqn:Hdone.
  2:{ injection H as <- <-. split; [apply same_but_queue_refl|].
      exists 0. rewrite Hq. cbn. rewrite app_nil_r.
      split_and!; [lia|done|done|constructor]. }
  pose proof (process_response_task_head name tid rest w Hq) as Hhead.
  destruct (process_response_task name tid w) as [w1 r1].
  destruct Hhead as (Hsame & Hrest & Htr & _). specialize (Htr Hdone).
  assert (Hone : Forall (fun u => task_done w u.2 = true) [(name, tid)])
    by (by constructor).
  destruct r1 as [e|[]].
  - injection H as <- <-. split; [done|]. exists 1. cbn. rewrite drop_0, take_0.
    cbn. rewrite app_nil_r. split_and!; [lia|done|done|done].
  - apply IH in H as (Hsame' & k & Hk & Hq' & Htr' & Hall).
    split; [by eapply same_but_queue_trans|].
    destruct Hsame as (_ & _ & Hlt & _).
    exists (S k). cbn [length take drop map concat]. rewrite Hrest in *.
    split_and!; [lia|done| |].
    + rewrite Htr', Htr, <- app_assoc. f_equal. f_equal. f_equal.
      apply map_ext. intros u. by apply frames_of_same_tasks.
    + constructor; [done|]. eapply Forall_impl; [exact Hall|].
      intros u. cbn. by rewrite (task_done_same_tasks w w1).
Qed.

(** With [length (tasks w)] turns of fuel the loop stops for the reason the
    source's does: the deque is empty, its head is not done, or a drained
    unit raised. *)
Lemma process_response_tasks_stops w :
  let '(w', r) := process_response_tasks w in
  r = Return tt ->
  tasks w' = [] \/ exists name tid rest, tasks w' = (name, tid) :: rest /\
                                          task_done w' tid = false.
Proof.
  unfold process_response_tasks.
  assert (Hgen : forall fuel w, length (tasks w) <= fuel ->
    let '(w', r) := process_response_tasks_loop fuel w in
    r = Return tt ->
    tasks w' = [] \/ exists name tid rest, tasks w' = (name, tid) :: rest /\
                                            task_done w' tid = false).
  { clear w. induction fuel as [|fuel IH]; intros w Hlen;
      cbn [process_response_tasks_loop].
    - intros _. left. destruct (tasks w); [done|cbn in Hlen; lia].
    - destruct (tasks w) as [|[name tid] rest] eqn:Hq; [by left|].
      destruct (task_done w tid) eqn:Hdone.
      2:{ intros _. right. by exists name, tid, rest. }
      pose proof (process_response_task_head name tid rest w Hq) as Hhead.
      destruct (process_response_task name tid w) as [w1 [e|[]]];
        [discriminate|].
      destruct Hhead as (_ & Hrest & _). apply IH. rewrite Hrest.
      cbn in Hlen. lia. }
  by apply Hgen.
Qed.

End DrainFacts.

(** ** Reachable worlds *)

Section Reachable.

Variable parse_request : bytes -> Outcome (string * Message).
Variable serialize_response : string -> Message -> Outcome bytes.
Variable self : nat.

#[local] Abbreviation frames_of := (frames_of serialize_response).
#[local] Abbreviation step := (step parse_request serialize_response self).
#[local] Abbreviation run := (run parse_request serialize_response self).
#[local] Abbreviation accepted := (accepted self).
#[local] Abbreviation call_callback := (call_callback serialize_response self).
#[local] Abbreviation drained_upto := (drained_upto serialize_response).

(** Induction over the events of a run. *)
Lemma run_ind (P : World -> Prop) :
  (forall ev w, P w -> P (step ev w)) ->
  forall evs w, P w -> P (run evs w).
Proof.
  intros Hstep evs.
  induction evs as [|ev evs IH]; intros w Hw; [done|].
  change (run (ev :: evs) w) with (run evs (step ev w)).
  apply IH, Hstep, Hw.
Qed.

Lemma run_app evs evs' w : run (evs ++ evs') w = run evs' (run evs w).
Proof. apply foldl_app. Qed.

Lemma grown_by_nil w w' :
  handler w' = handler w -> transport w' = transport w ->
  close_tasks w' = close_tasks w -> connections w' = connections w ->
  loop_errors w' = loop_errors w -> loop_tasks w' = loop_tasks w ->
  tasks w' = tasks w -> grown_by [] w w'.
Proof.
  intros. unfold grown_by. cbn. rewrite !app_nil_r. split_and!; try done.
Qed.

Lemma data_received_loop_grows fuel : forall w acc w' got r,
  data_received_loop parse_request fuel w acc = (w', got, r) ->
  exists new, grown_by new w w'.
Proof.
  induction fuel as [|fuel IH]; intros w acc w' got r H;
    cbn [data_received_loop] in H.
  { injection H as <- <- <-. exists []. by apply grown_by_nil. }
  destruct (buffer w) as [|b0 buf0]; cbn [buffer].
  { injection H as <- <- <-. exists []. by apply grown_by_nil. }
  destruct (decode_varint _ 0) as [e|[v pos]].
  { injection H as <- <- <-. exists []. by apply grown_by_nil. }
  destruct (_ <=? _)%N.
  2:{ injection H as <- <- <-. exists []. by apply grown_by_nil. }
  destruct (parse_request _) as [e|[name message]].
  { injection H as <- <- <-. exists []. by apply grown_by_nil. }
  apply IH in H as (new & Hh & Htr & Hc & Hcs & Hle & Hlt & Hq & Hnew).
  cbn in Hh, Htr, Hc, Hcs, Hle, Hlt, Hq.
  exists ({| task_name := name; task_message := message; task_coro := Created;
             task_callbacks := [drain_callback] |} :: new).
  unfold grown_by. split_and!; try done.
  - by rewrite Hlt, <- app_assoc.
  - rewrite Hq, <- app_assoc. cbn [imap app]. f_equal. f_equal.
    + by rewrite Nat.add_0_r.
    + apply imap_ext. intros i t _. cbn. rewrite length_app. cbn.
      f_equal. lia.
  - by constructor.
Qed.

Lemma data_received_grows data w w' got r :
  data_received parse_request data w = (w', got, r) ->
  exists new, grown_by new w w'.
Proof.
  unfold data_received. intros H.
  apply data_received_loop_grows in H as (new & H). exists new. exact H.
Qed.

Lemma persists_refl w : persists w w.
Proof. intros i t Ht. by exists t. Qed.

Lemma persists_same_tasks w w' : loop_tasks w' = loop_tasks w -> persists w w'.
Proof. intros H i t Ht. exists t. by rewrite H. Qed.

Lemma persists_trans w1 w2 w3 : persists w1 w2 -> persists w2 w3 -> persists w1 w3.
Proof.
  intros H12 H23 i t Ht.
  destruct (H12 i t Ht) as (t2 & Ht2 & Hn2 & Hr2).
  destruct (H23 i t2 Ht2) as (t3 & Ht3 & Hn3 & Hr3).
  exists t3. split_and!; [done|congruence|]. intros r Hr. eauto.
Qed.

Lemma persists_grown new w w' : grown_by new w w' -> persists w w'.
Proof.
  intros (_ & _ & _ & _ & _ & Hlt & _) i t Ht. exists t. rewrite Hlt.
  split; [by apply lookup_app_l_Some|done].
Qed.

(** Rewriting one task that keeps its name and, once finished, its
    outcome. *)
Lemma persists_update tid f w :
  (forall t, loop_tasks w !! tid = Some t ->
             task_name (f t) = task_name t /\
             forall r, task_coro t = Finished r -> task_coro (f t) = Finished r) ->
  persists w (update_task tid f w).
Proof.
  intros Hf i t Ht. unfold update_task.
  destruct (loop_tasks w !! tid) as [t0|] eqn:H0; [|by exists t].
  cbn [loop_tasks set_loop_tasks].
  destruct (decide (tid = i)) as [->|Hne].
  - rewrite list_lookup_insert_eq by (by eapply lookup_lt_Some).
    assert (t0 = t) as -> by congruence.
    exists (f t). split; [done|]. by apply Hf.
  - rewrite list_lookup_insert_ne by done. by exists t.
Qed.

Lemma persists_enqueued_lookup w w' i u :
  persists w w' -> enqueued w !! i = Some u -> enqueued w' !! i = Some u.
Proof.
  unfold enqueued. rewrite !list_lookup_imap. intros Hp.
  destruct (loop_tasks w !! i) as [t|] eqn:Ht; cbn; [|discriminate].
  intros [= <-]. destruct (Hp i t Ht) as (t' & Ht' & Hn & _).
  rewrite Ht'. cbn. by rewrite Hn.
Qed.

Lemma persists_done w w' i :
  persists w w' -> task_done w i = true -> task_done w' i = true.
Proof.
  unfold task_done. intros Hp.
  destruct (loop_tasks w !! i) as [t|] eqn:Ht; [|discriminate].
  destruct (Hp i t Ht) as (t' & -> & _ & Hr).
  destruct t as [n m [| | |r] cbs]; try discriminate.
  intros _. specialize (Hr r eq_refl). destruct t'; cbn in *. by rewrite Hr.
Qed.

Lemma persists_frames w w' i u :
  persists w w' -> enqueued w !! i = Some u -> task_done w i = true ->
  frames_of w' u = frames_of w u.
Proof.
  intros Hp Hu Hd. apply enqueued_lookup in Hu as (Hi & t & Ht & _).
  unfold frames_of, task_done in *. rewrite Hi, Ht in *.
  destruct (Hp i t Ht) as (t' & -> & _ & Hr).
  destruct t as [n m [| | |r] cbs]; try discriminate.
  specialize (Hr r eq_refl). destruct t'; cbn in *. by rewrite Hr.
Qed.

(** The drained prefix survives whatever keeps the tasks and the writes. *)
Lemma drained_upto_persists k w w' :
  drained_upto k w -> persists w w' ->
  tasks w' = drop k (enqueued w') -> transport w' = transport w ->
  drained_upto k w'.
Proof.
  intros (Hk & Hq & Htr & Hdone) Hp Hq' Htr'.
  assert (Hlen : length (loop_tasks w) <= length (loop_tasks w')).
  { destruct (loop_tasks w) as [|t0 l] eqn:Hl using rev_ind; [cbn; lia|].
    clear IHl. destruct (Hp (length l) t0) as (t' & Ht' & _).
    { rewrite Hl. by rewrite lookup_app_r, Nat.sub_diag by lia. }
    apply lookup_lt_Some in Ht'. rewrite length_app. cbn. lia. }
  unfold drained_upto.
  split_and!; [lia|done| |].
  - rewrite Htr', Htr. f_equal. apply list_eq. intros i.
    rewrite !list_lookup_fmap.
    destruct (decide (i < k)) as [Hi|Hi].
    + rewrite !lookup_take_lt by done.
      destruct (enqueued w !! i) as [u|] eqn:Hu.
      * rewrite (persists_enqueued_lookup w w' i u Hp Hu). cbn. f_equal.
        symmetry. eapply persists_frames; eauto.
      * apply lookup_ge_None_1 in Hu. rewrite enqueued_length in Hu. lia.
    + by rewrite !lookup_take_ge by lia.
  - intros i Hi. eapply persists_done; eauto.
Qed.

Lemma drained_upto_same k w w' :
  loop_tasks w' = loop_tasks w -> tasks w' = tasks w ->
  transport w' = transport w -> drained_upto k w -> drained_upto k w'.
Proof.
  intros Hlt Hq Htr Hd. apply (drained_upto_persists k w w' Hd).
  - by apply persists_same_tasks.
  - unfold enqueued. rewrite Hq, Hlt. by destruct Hd as (_ & -> & _).
  - done.
Qed.

Lemma enqueued_grown new w w' :
  grown_by new w w' ->
  enqueued w' =
    enqueued w ++ imap (fun i t => (task_name t, length (loop_tasks w) + i)) new.
Proof.
  intros (_ & _ & _ & _ & _ & Hlt & _). unfold enqueued.
  by rewrite Hlt, imap_app.
Qed.

Lemma drained_upto_grown k new w w' :
  grown_by new w w' -> drained_upto k w -> drained_upto k w'.
Proof.
  intros Hg Hd. apply (drained_upto_persists k w w' Hd).
  - by eapply persists_grown.
  - rewrite (enqueued_grown new w w' Hg).
    destruct Hg as (_ & _ & _ & _ & _ & _ & -> & _).
    destruct Hd as (Hk & -> & _).
    rewrite drop_app_le; [done|]. by rewrite enqueued_length.
  - by destruct Hg as (_ & -> & _).
Qed.

Lemma enqueued_update tid f w :
  (forall t, loop_tasks w !! tid = Some t -> task_name (f t) = task_name t) ->
  enqueued (update_task tid f w) = enqueued w.
Proof.
  intros Hf. unfold update_task.
  destruct (loop_tasks w !! tid) as [t0|] eqn:H0; [|done].
  unfold enqueued. cbn [loop_tasks set_loop_tasks]. apply list_eq. intros i.
  rewrite !list_lookup_imap. destruct (decide (tid = i)) as [->|Hne].
  - rewrite list_lookup_insert_eq by (by eapply lookup_lt_Some).
    rewrite H0. cbn. by rewrite Hf.
  - by rewrite list_lookup_insert_ne.
Qed.

Lemma drained_upto_update k tid f w :
  (forall t, loop_tasks w !! tid = Some t ->
             task_name (f t) = task_name t /\
             forall r, task_coro t = Finished r -> task_coro (f t) = Finished r) ->
  drained_upto k w -> drained_upto k (update_task tid f w).
Proof.
  intros Hf Hd. apply (drained_upto_persists k w _ Hd).
  - by apply persists_update.
  - rewrite enqueued_update by (intros; by apply Hf).
    destruct Hd as (_ & <- & _). unfold update_task. by destruct (_ !! _).
  - unfold update_task. by destruct (_ !! _).
Qed.

(** Draining extends the drained prefix. *)
Lemma drained_upto_drain k w w' r fuel :
  drained_upto k w ->
  process_response_tasks_loop serialize_response fuel w = (w', r) ->
  exists k', k <= k' /\ drained_upto k' w'.
Proof.
  intros (Hk & Hq & Htr & Hdone) H.
  apply process_response_tasks_loop_effect in H
    as ((_ & _ & Hlt & _) & n & Hn & Hq' & Htr' & Hall).
  exists (k + n). split; [lia|].
  assert (Hlen : k + n <= length (loop_tasks w)).
  { rewrite Hq, length_drop, enqueued_length in Hn. lia. }
  unfold drained_upto, enqueued in *. rewrite Hlt.
  split_and!; [done|by rewrite Hq', Hq, drop_drop| |].
  - assert (Hfr : frames_of w' = frames_of w)
      by (unfold frames_of; by rewrite Hlt).
    by rewrite Hfr, Htr', Htr, Hq, <- take_take_drop, map_app, concat_app.
  - intros i Hi. rewrite (task_done_same_tasks w w') by done.
    destruct (decide (i < k)) as [Hlt'|Hge]; [by apply Hdone|].
    rewrite List.Forall_forall in Hall.
    assert (Hin : exists u, take n (tasks w) !! (i - k) = Some u).
    { apply lookup_lt_is_Some_2. rewrite length_take. lia. }
    destruct Hin as (u & Hu).
    assert (Hd := Hall u (proj1 (list_elem_of_In _ _) (list_elem_of_lookup_2 _ _ _ Hu))).
    rewrite lookup_take_lt, Hq, lookup_drop in Hu by lia.
    replace (k + (i - k)) with i in Hu by lia.
    fold (enqueued w) in Hu. apply enqueued_lookup in Hu as (<- & _). done.
Qed.

Lemma call_callback_drained cb nargs w k :
  drained_upto k w ->
  exists k', k <= k' /\ drained_upto k' (call_callback cb nargs w).1.
Proof.
  intros Hd. unfold call_callback.
  destruct (decide (arity cb = nargs)); [|by exists k].
  destruct (action cb).
  - unfold process_response_tasks.
    destruct (process_response_tasks_loop _ _ w) as [w' r] eqn:H.
    apply (drained_upto_drain k w w' r _ Hd H).
  - exists k. split; [done|]. by eapply drained_upto_same.
Qed.

Lemma report_drained r w k : drained_upto k w -> drained_upto k (report r w).
Proof. destruct r; [|done]. by apply drained_upto_same. Qed.

(** An event never takes a unit back: the drained prefix only grows. *)
Lemma step_drained ev w k :
  drained_upto k w -> exists k', k <= k' /\ drained_upto k' (step ev w).
Proof.
  intros Hd. destruct ev as [data|exc|tid|tid r|tid r|tid|cid|cid];
    cbn [step].
  - destruct (data_received parse_request data w) as [[w' got] r] eqn:H.
    apply data_received_grows in H as (new & Hg).
    exists k. split; [done|]. apply report_drained. by eapply drained_upto_grown.
  - exists k. split; [done|]. by eapply drained_upto_same.
  - exists k. split; [done|].
    destruct (loop_tasks w !! tid) as [[n m [| | |?] cbs]|] eqn:Ht; try done.
    apply drained_upto_update; [|done].
    intros t. rewrite Ht. by intros [= <-].
  - exists k. split; [done|].
    destruct (loop_tasks w !! tid) as [[n m [| | |?] cbs]|] eqn:Ht; try done.
    destruct r as [e|h]; cbn [async_response_bound].
    + apply drained_upto_update; [|done].
      intros t. rewrite Ht. by intros [= <-].
    + apply drained_upto_update; [|by eapply drained_upto_same].
      intros t. cbn. rewrite Ht. by intros [= <-].
  - exists k. split; [done|].
    destruct (loop_tasks w !! tid) as [[n m [| | |?] cbs]|] eqn:Ht; try done.
    apply drained_upto_update; [|done].
    intros t. rewrite Ht. by intros [= <-].
  - destruct (loop_tasks w !! tid) as [[n m [| | |?] [|cb cbs]]|] eqn:Ht;
      try by exists k.
    destruct (call_callback_drained cb 1
                (update_task tid (set_callbacks cbs) w) k) as (k' & Hle & Hk').
    { apply drained_upto_update; [|done].
      intros t. rewrite Ht. by intros [= <-]. }
    destruct (call_callback cb 1 _) as [w2 r2]. exists k'.
    split; [done|]. by apply report_drained.
  - exists k. split; [done|].
    destruct (close_tasks w !! cid) as [[exc [| |?] cbs]|]; done.
  - destruct (close_tasks w !! cid) as [[exc [| |?] [|cb cbs]]|];
      try by exists k.
    match goal with |- context [call_callback cb 1 ?w1] =>
      destruct (call_callback_drained cb 1 w1 k) as (k' & Hle & Hk') end.
    { by eapply drained_upto_same. }
    destruct (call_callback cb 1 _) as [w2 r2]. exists k'.
    split; [done|]. by apply report_drained.
Qed.

Lemma accepted_drained : drained_upto 0 accepted.
Proof. unfold drained_upto. cbn. split_and!; [lia|done|done|lia]. Qed.

Lemma reachable_drained evs : exists k, drained_upto k (run evs accepted).
Proof.
  apply run_ind; [|exists 0; apply accepted_drained].
  intros ev w (k & Hd). destruct (step_drained ev w k Hd) as (k' & _ & Hk').
  by exists k'.
Qed.

Lemma reachable_queue_NoDup evs : NoDup (tasks (run evs accepted)).
Proof.
  destruct (reachable_drained evs) as (k & _ & -> & _).
  eapply sublist_NoDup; [apply enqueued_NoDup|apply sublist_drop].
Qed.

(** C1. In every world a connection can reach, the transport holds exactly
    the frames of the first [k] units of the enqueue order, in that order
    (a unit that failed contributes none), those [k] units are done, and the
    pending deque is the rest of the enqueue order; one more event, whatever
    completed in between, only extends that prefix to some [k' >= k]. So a
    unit is emitted only from the head of the deque, after every unit enqueued
    before it has been drained. *)
Theorem responses_in_enqueue_order evs ev :
  exists k k',
    k <= k' /\
    drained_upto k (run evs accepted) /\
    drained_upto k' (run (evs ++ [ev]) accepted).
Proof.
  destruct (reachable_drained evs) as (k & Hd).
  destruct (step_drained ev _ k Hd) as (k' & Hle & Hd').
  exists k, k'. rewrite run_app. by split_and!.
Qed.

(** C9. Draining the head unit of a reachable world removes it from the
    deque on every path: the deque is the former tail whatever the outcome,
    the unit does not occur in it any more, and when its computation raised,
    the drain raises that exception and writes nothing. *)
Theorem drained_head_is_removed evs name tid rest :
  tasks (run evs accepted) = (name, tid) :: rest ->
  let '(w', r) :=
    process_response_task serialize_response name tid (run evs accepted) in
  tasks w' = rest /\ ((name, tid) ∉ rest) /\
  (forall t e, loop_tasks (run evs accepted) !! tid = Some t ->
               task_coro t = Finished (Raise e) ->
               r = Raise e /\ transport w' = transport (run evs accepted)).
Proof.
  intros Hq. pose proof (reachable_queue_NoDup evs) as Hnd. rewrite Hq in Hnd.
  pose proof (process_response_task_head serialize_response name tid rest _ Hq)
    as Hhead.
  destruct (process_response_task _ name tid _) as [w' r].
  destruct Hhead as (_ & Hrest & _ & Hfail).
  split_and!; [done|by apply NoDup_cons_1_1|exact Hfail].
Qed.

(** *** What an event leaves alone *)

Lemma call_callback_same_tasks cb nargs w :
  loop_tasks (call_callback cb nargs w).1 = loop_tasks w /\
  close_tasks (call_callback cb nargs w).1 = close_tasks w /\
  handler (call_callback cb nargs w).1 = handler w.
Proof.
  unfold call_callback. destruct (decide (arity cb = nargs)); [|done].
  destruct (action cb); [|done]. unfold process_response_tasks.
  destruct (process_response_tasks_loop _ _ w) as [w' r] eqn:H.
  apply process_response_tasks_loop_effect in H as ((_ & ? & ? & ? & _) & _).
  done.
Qed.

Lemma report_fields r w :
  loop_tasks (report r w) = loop_tasks w /\
  close_tasks (report r w) = close_tasks w /\
  handler (report r w) = handler w /\
  connections (report r w) = connections w /\
  transport (report r w) = transport w /\ tasks (report r w) = tasks w.
Proof. by destruct r. Qed.

Lemma step_persists ev w : persists w (step ev w).
Proof.
  destruct ev as [data|exc|tid|tid r|tid r|tid|cid|cid]; cbn [step].
  - destruct (data_received parse_request data w) as [[w' got] r] eqn:H.
    apply data_received_grows in H as (new & Hg).
    eapply persists_trans; [by eapply persists_grown|].
    apply persists_same_tasks. apply report_fields.
  - by apply persists_same_tasks.
  - destruct (loop_tasks w !! tid) as [[n m [| | |?] cbs]|] eqn:Ht;
      try apply persists_refl.
    apply persists_update. intros t. rewrite Ht. by intros [= <-].
  - destruct (loop_tasks w !! tid) as [[n m [| | |?] cbs]|] eqn:Ht;
      try apply persists_refl.
    destruct r as [e|h]; cbn [async_response_bound].
    + apply persists_update. intros t. rewrite Ht. by intros [= <-].
    + eapply persists_trans;
        [apply (persists_same_tasks w (set_handler (Some h) w)); done|].
      apply persists_update. intros t. cbn. rewrite Ht. by intros [= <-].
  - destruct (loop_tasks w !! tid) as [[n m [| | |?] cbs]|] eqn:Ht;
      try apply persists_refl.
    apply persists_update. intros t. rewrite Ht. by intros [= <-].
  - destruct (loop_tasks w !! tid) as [[n m [| | |?] [|cb cbs]]|] eqn:Ht;
      try apply persists_refl.
    eapply persists_trans.
    { apply (persists_update tid (set_callbacks cbs)).
      intros t. rewrite Ht. by intros [= <-]. }
    pose proof (call_callback_same_tasks cb 1
                  (update_task tid (set_callbacks cbs) w)) as (Hlt & _).
    destruct (call_callback cb 1 _) as [w2 r2]. apply persists_same_tasks.
    cbn in Hlt. rewrite <- Hlt. apply report_fields.
  - destruct (close_tasks w !! cid) as [[exc [| |?] cbs]|];
      by apply persists_same_tasks.
  - destruct (close_tasks w !! cid) as [[exc [| |?] [|cb cbs]]|];
      try apply persists_refl.
    match goal with |- context [call_callback cb 1 ?w1] =>
      pose proof (call_callback_same_tasks cb 1 w1) as (Hlt & _) end.
    destruct (call_callback cb 1 _) as [w2 r2]. apply persists_same_tasks.
    cbn in Hlt. rewrite <- Hlt. apply report_fields.
Qed.

(** Starting a created task: its coroutine runs to its first suspension or
    to its end, and nothing else changes. *)
Lemma step_start w tid t :
  loop_tasks w !! tid = Some t -> task_coro t = Created ->
  step (EvStart tid) w =
    set_loop_tasks
      (<[tid := set_coro (async_response (task_name t) (task_message t) w) t]>
         (loop_tasks w)) w.
Proof.
  intros Ht Hc. cbn [step]. rewrite Ht. destruct t as [n m c cbs].
  cbn in Hc. subst c. unfold update_task. by rewrite Ht.
Qed.

Lemma step_factory w tid t cls h :
  loop_tasks w !! tid = Some t -> task_coro t = AwaitFactory cls ->
  step (EvFactory tid (Return h)) w =
    set_loop_tasks
      (<[tid := set_coro (async_response_dispatch (task_name t) (task_message t)
                            (set_handler (Some h) w)) t]> (loop_tasks w))
      (set_handler (Some h) w).
Proof.
  intros Ht Hc. cbn [step]. rewrite Ht. destruct t as [n m c cbs].
  cbn in Hc. subst c. cbn [async_response_bound]. unfold update_task.
  cbn [loop_tasks set_handler]. by rewrite Ht.
Qed.

Lemma step_handler w tid t r :
  loop_tasks w !! tid = Some t -> task_coro t = AwaitHandler ->
  step (EvHandler tid r) w =
    set_loop_tasks
      (<[tid := set_coro (async_response_handled (task_name t) (task_message t) r) t]>
         (loop_tasks w)) w.
Proof.
  intros Ht Hc. cbn [step]. rewrite Ht. destruct t as [n m c cbs].
  cbn in Hc. subst c. unfold update_task. by rewrite Ht.
Qed.

(** *** Binding needs a categorised request *)

Lemma async_response_dispatch_not_factory name message w cls :
  async_response_dispatch name message w <> AwaitFactory cls.
Proof.
  unfold async_response_dispatch. destruct (handler w) as [h|]; [|done].
  by destruct (decide (name ∈ methods h)).
Qed.

Lemma async_response_factory name message w cls :
  async_response name message w = AwaitFactory cls ->
  handler w = None /\ handler_class_of name = Some cls.
Proof.
  unfold async_response. destruct (handler w) as [h|].
  { intros H. by apply async_response_dispatch_not_factory in H. }
  destruct (handler_class_of name) as [c|].
  - by intros [= ->].
  - intros H. by apply async_response_dispatch_not_factory in H.
Qed.

Lemma persists_classified w w' :
  persists w w' ->
  Exists (fun t => is_Some (handler_class_of (task_name t))) (loop_tasks w) ->
  Exists (fun t => is_Some (handler_class_of (task_name t))) (loop_tasks w').
Proof.
  intros Hp. rewrite !Exists_exists. intros (t & Hin & Hc).
  apply list_elem_of_lookup in Hin as (i & Hi).
  destruct (Hp i t Hi) as (t' & Ht' & Hn & _). exists t'.
  split; [by eapply list_elem_of_lookup_2|by rewrite Hn].
Qed.

Lemma step_binding_ok ev w : binding_ok w -> binding_ok (step ev w).
Proof.
  intros [Hwait Hbound].
  assert (Hex : forall h, handler (step ev w) = Some h ->
     (handler w = handler (step ev w) \/
      Exists (fun t => is_Some (handler_class_of (task_name t))) (loop_tasks w)) ->
     Exists (fun t => is_Some (handler_class_of (task_name t)))
       (loop_tasks (step ev w))).
  { intros h Hh [Heq|Hex]; (eapply persists_classified; [apply step_persists|]);
      [|done]. apply (Hbound h). by rewrite Heq. }
  destruct ev as [data|exc|tid|tid r|tid r|tid|cid|cid].
  - split; [|intros h Hh; apply (Hex h Hh); left]; cbn [step] in *;
      destruct (data_received parse_request data w) as [[w' got] r] eqn:H;
      apply data_received_grows in H
        as (new & Hh' & _ & _ & _ & _ & Hlt & _ & Hnew);
      destruct (report_fields r w') as (Hlt' & _ & Hh'' & _).
    + rewrite Hlt', Hlt. apply Forall_app. split; [done|].
      eapply Forall_impl; [exact Hnew|]. intros t [Hc _] cls. by rewrite Hc.
    + by rewrite Hh'', Hh'.
  - split; [done|]. intros h Hh. apply (Hex h Hh). by left.
  - destruct (loop_tasks w !! tid) as [t|] eqn:Ht.
    2:{ cbn [step]. by rewrite Ht. }
    destruct (decide (task_coro t = Created)) as [Hc|Hc].
    2:{ cbn [step]. rewrite Ht. by destruct t as [n m [| | |?] cbs]. }
    split; [|intros h Hh; apply (Hex h Hh); left;
             by rewrite (step_start w tid t Ht Hc)].
    rewrite (step_start w tid t Ht Hc). cbn [loop_tasks set_loop_tasks].
    apply Forall_insert; [done|]. intros cls. destruct t; cbn [task_coro set_coro task_name task_message].
    intros H. by apply async_response_factory in H as [_ H].
  - destruct (loop_tasks w !! tid) as [t|] eqn:Ht.
    2:{ cbn [step]. by rewrite Ht. }
    destruct (task_coro t) as [|cls| |?] eqn:Hc;
      try (cbn [step]; rewrite Ht; destruct t; cbn in Hc; by subst).
    destruct r as [e|h].
    + assert (Hs : step (EvFactory tid (Raise e)) w =
                   update_task tid (set_coro (Finished (Raise e))) w).
      { cbn [step]. rewrite Ht. destruct t; cbn in Hc. by subst. }
      split; [|intros h Hh; apply (Hex h Hh); left; rewrite Hs;
               unfold update_task; by rewrite Ht].
      rewrite Hs. unfold update_task. rewrite Ht. cbn.
      apply Forall_insert; [done|]. by destruct t.
    + split; [|intros h' Hh; apply (Hex h' Hh); right].
      * rewrite (step_factory w tid t cls h Ht Hc). cbn [loop_tasks set_loop_tasks].
        apply Forall_insert; [done|]. intros cls'. destruct t; cbn [task_coro set_coro task_name task_message].
        intros H. by apply async_response_dispatch_not_factory in H.
      * apply Exists_exists. exists t. split; [by eapply list_elem_of_lookup_2|].
        rewrite List.Forall_forall in Hwait.
        assert (Hin : In t (loop_tasks w))
          by (apply list_elem_of_In; by eapply list_elem_of_lookup_2).
        rewrite (Hwait t Hin cls Hc). by eexists.
  - destruct (loop_tasks w !! tid) as [t|] eqn:Ht.
    2:{ cbn [step]. by rewrite Ht. }
    destruct (decide (task_coro t = AwaitHandler)) as [Hc|Hc].
    2:{ cbn [step]. rewrite Ht. by destruct t as [n m [| | |?] cbs]. }
    split; [|intros h Hh; apply (Hex h Hh); left;
             by rewrite (step_handler w tid t r Ht Hc)].
    rewrite (step_handler w tid t r Ht Hc). cbn [loop_tasks set_loop_tasks].
    apply Forall_insert; [done|]. intros cls. destruct t; cbn [task_coro set_coro task_name task_message].
    by destruct r.
  - cbn [step] in *.
    destruct (loop_tasks w !! tid) as [[n m [| | |r0] [|cb cbs]]|] eqn:Ht;
      try done.
    pose proof (call_callback_same_tasks cb 1
                  (update_task tid (set_callbacks cbs) w)) as (Hlt & _ & Hh).
    destruct (call_callback cb 1 _) as [w2 r2]. cbn in Hlt, Hh.
    destruct (report_fields r2 w2) as (Hlt' & _ & Hh' & _).
    assert (Hhw : handler (report r2 w2) = handler w).
    { rewrite Hh', Hh. unfold update_task. by rewrite Ht. }
    split; [|intros h Hh2; apply (Hex h Hh2); left; by rewrite Hhw].
    rewrite Hlt', Hlt. unfold update_task. rewrite Ht. cbn.
    by apply Forall_insert.
  - cbn [step] in *. split; [|intros h Hh; apply (Hex h Hh); left];
      by destruct (close_tasks w !! cid) as [[exc [| |?] cbs]|].
  - cbn [step] in *.
    destruct (close_tasks w !! cid) as [[exc [| |?] [|cb cbs]]|]; try done.
    match goal with |- context [call_callback cb 1 ?w1] =>
      pose proof (call_callback_same_tasks cb 1 w1) as (Hlt & _ & Hh) end.
    destruct (call_callback cb 1 _) as [w2 r2]. cbn in Hlt, Hh.
    destruct (report_fields r2 w2) as (Hlt' & _ & Hh' & _).
    split; [by rewrite Hlt', Hlt|].
    intros h Hh2; apply (Hex h Hh2); left. by rewrite Hh', Hh.
Qed.

Lemma reachable_binding_ok evs : binding_ok (run evs accepted).
Proof.
  apply run_ind; [apply step_binding_ok|]. split; [constructor|done].
Qed.

(** A handler is bound only on a connection that received a request with a
    categorised name. *)
Lemma bound_handler_needs_category evs h :
  handler (run evs accepted) = Some h ->
  Exists (fun t => is_Some (handler_class_of (task_name t)))
    (loop_tasks (run evs accepted)).
Proof.
  intros H. destruct (reachable_binding_ok evs) as [_ Hb]. by apply (Hb h).
Qed.

(** *** The teardown callback never runs its body *)

Lemma callbacks_ok_same w w' :
  loop_tasks w' = loop_tasks w -> close_tasks w' = close_tasks w ->
  callbacks_ok w -> callbacks_ok w'.
Proof. unfold callbacks_ok. by intros -> ->. Qed.

Lemma callbacks_ok_update tid f w :
  (forall t, loop_tasks w !! tid = Some t ->
             Forall (fun cb => cb = drain_callback) (task_callbacks t) ->
             Forall (fun cb => cb = drain_callback) (task_callbacks (f t))) ->
  callbacks_ok w -> callbacks_ok (update_task tid f w).
Proof.
  intros Hf [Hlt Hct]. unfold update_task.
  destruct (loop_tasks w !! tid) as [t|] eqn:Ht; [|done].
  split; [|done]. cbn. apply Forall_insert; [done|].
  apply Hf; [done|]. rewrite List.Forall_forall in Hlt. apply Hlt.
  apply list_elem_of_In. by eapply list_elem_of_lookup_2.
Qed.

Lemma call_callback_registered cb w :
  cb = drain_callback \/ cb = discard_callback ->
  connections (call_callback cb 1 w).1 = connections w.
Proof.
  intros [-> | ->]; unfold call_callback; cbn; [|done].
  unfold process_response_tasks.
  destruct (process_response_tasks_loop _ _ w) as [w' r] eqn:H.
  by apply process_response_tasks_loop_effect in H as ((_&_&_&_&?&_) & _).
Qed.

Lemma step_callbacks_ok ev w :
  callbacks_ok w /\ self ∈ connections w ->
  callbacks_ok (step ev w) /\ self ∈ connections (step ev w).
Proof.
  intros [Hcb Hreg]. destruct ev as [data|exc|tid|tid r|tid r|tid|cid|cid];
    cbn [step].
  - destruct (data_received parse_request data w) as [[w' got] r] eqn:H.
    apply data_received_grows in H
      as (new & _ & _ & Hct & Hcs & _ & Hlt & _ & Hnew).
    destruct (report_fields r w') as (Hlt' & Hct' & _ & Hcs' & _).
    split; [|by rewrite Hcs', Hcs]. destruct Hcb as [H1 H2].
    split; [|by rewrite Hct', Hct]. rewrite Hlt', Hlt. apply Forall_app.
    split; [done|]. eapply Forall_impl; [exact Hnew|].
    intros t [_ ->]. by repeat constructor.
  - split; [|done]. destruct Hcb as [H1 H2]. split; [done|]. cbn.
    apply Forall_app. split; [done|]. by repeat constructor.
  - destruct (loop_tasks w !! tid) as [[n m [| | |?] cbs]|] eqn:Ht; try done.
    split; [|unfold update_task; by rewrite Ht].
    apply callbacks_ok_update; [|done]. intros t. rewrite Ht. by intros [= <-].
  - destruct (loop_tasks w !! tid) as [[n m [| | |?] cbs]|] eqn:Ht; try done.
    destruct r as [e|h]; cbn [async_response_bound];
      (split; [|unfold update_task; cbn; by rewrite Ht]);
      (apply callbacks_ok_update; [|done]); intros t; cbn; rewrite Ht;
      by intros [= <-].
  - destruct (loop_tasks w !! tid) as [[n m [| | |?] cbs]|] eqn:Ht; try done.
    split; [|unfold update_task; by rewrite Ht].
    apply callbacks_ok_update; [|done]. intros t. rewrite Ht. by intros [= <-].
  - destruct (loop_tasks w !! tid) as [[n m [| | |r0] [|cb cbs]]|] eqn:Ht;
      try done.
    assert (Hcbs : Forall (fun c => c = drain_callback) (cb :: cbs)).
    { destruct Hcb as [H1 _]. rewrite List.Forall_forall in H1.
      apply (H1 {| task_name := n; task_message := m; task_coro := Finished r0;
                   task_callbacks := cb :: cbs |}).
      apply list_elem_of_In. by eapply list_elem_of_lookup_2. }
    apply Forall_cons in Hcbs as [-> Hcbs].
    set (w1 := update_task tid (set_callbacks cbs) w).
    assert (Hcb1 : callbacks_ok w1).
    { apply callbacks_ok_update; [|done]. intros t. rewrite Ht.
      by intros [= <-]. }
    pose proof (call_callback_same_tasks drain_callback 1 w1) as (Hlt & Hct & _).
    pose proof (call_callback_registered drain_callback w1 (or_introl eq_refl))
      as Hcs.
    destruct (call_callback drain_callback 1 w1) as [w2 r2]. cbn in Hlt, Hct, Hcs.
    destruct (report_fields r2 w2) as (Hlt' & Hct' & _ & Hcs' & _).
    split.
    + eapply callbacks_ok_same; [..|exact Hcb1]; congruence.
    + rewrite Hcs', Hcs. subst w1. unfold update_task. by rewrite Ht.
  - destruct (close_tasks w !! cid) as [[exc [| |?] cbs]|] eqn:Ht; try done.
    split; [|done]. destruct Hcb as [H1 H2]. split; [done|]. cbn.
    apply Forall_insert; [done|]. rewrite List.Forall_forall in H2.
    apply (H2 {| close_exc := exc; close_coro := CloseCreated;
                 close_callbacks := cbs |}).
    apply list_elem_of_In. by eapply list_elem_of_lookup_2.
  - destruct (close_tasks w !! cid) as [[exc [| |r0] [|cb cbs]]|] eqn:Ht;
      try done.
    assert (Hcbs : Forall (fun c => c = discard_callback) (cb :: cbs)).
    { destruct Hcb as [_ H2]. rewrite List.Forall_forall in H2.
      apply (H2 {| close_exc := exc; close_coro := CloseFinished r0;
                   close_callbacks := cb :: cbs |}).
      apply list_elem_of_In. by eapply list_elem_of_lookup_2. }
    apply Forall_cons in Hcbs as [-> Hcbs].
    split; [|done]. destruct Hcb as [H1 H2]. split; [done|]. cbn.
    by apply Forall_insert.
Qed.

(** Once accepted, the connection stays in [server_state.connections]
    whatever happens later. *)
Lemma connection_never_discarded evs : self ∈ connections (run evs accepted).
Proof.
  apply (run_ind (fun w => callbacks_ok w /\ self ∈ connections w));
    [apply step_callbacks_ok|].
  split; [split; constructor|]. cbn. set_solver.
Qed.

(** *** Dispatch *)

Lemma handler_class_of_echo : handler_class_of "echo" = None.
Proof. reflexivity. Qed.

Lemma handler_class_of_flush : handler_class_of "flush" = None.
Proof. reflexivity. Qed.

Lemma lookup_started w tid t c :
  loop_tasks w !! tid = Some t ->
  loop_tasks (set_loop_tasks (<[tid := set_coro c t]> (loop_tasks w)) w) !! tid =
    Some (set_coro c t).
Proof.
  intros Ht. cbn. apply list_lookup_insert_eq. by eapply lookup_lt_Some.
Qed.

(** C6. A created echo task run while no handler is bound ends at once with
    [ResponseEcho M] for the [M] of its request, a flush task with
    [ResponseFlush]; neither awaits the factory and the handler stays unbound.
    On a connection whose requests are all echo or flush no handler is ever
    bound. *)
Theorem echo_flush_short_circuit w tid t :
  loop_tasks w !! tid = Some t -> task_coro t = Created -> handler w = None ->
  (forall M, task_name t = "echo" -> task_message t = RequestEcho M ->
     loop_tasks (step (EvStart tid) w) !! tid =
       Some (set_coro (Finished (Return (ResponseEcho M))) t) /\
     handler (step (EvStart tid) w) = None) /\
  (task_name t = "flush" ->
     loop_tasks (step (EvStart tid) w) !! tid =
       Some (set_coro (Finished (Return ResponseFlush)) t) /\
     handler (step (EvStart tid) w) = None) /\
  (forall evs,
     Forall (fun t => task_name t = "echo" \/ task_name t = "flush")
       (loop_tasks (run evs accepted)) ->
     handler (run evs accepted) = None).
Proof.
  intros Ht Hc Hh. rewrite (step_start w tid t Ht Hc). split_and!.
  - intros M Hn Hm. split; [|done]. rewrite <- (lookup_started w tid t _ Ht).
    do 3 f_equal. unfold async_response, async_response_dispatch.
    rewrite Hh, Hn, Hm. reflexivity.
  - intros Hn. split; [|done]. rewrite <- (lookup_started w tid t _ Ht).
    do 3 f_equal. unfold async_response, async_response_dispatch.
    rewrite Hh, Hn. reflexivity.
  - intros evs Hall. destruct (handler (run evs accepted)) as [h|] eqn:Hb; [|done].
    apply bound_handler_needs_category in Hb. apply Exists_exists in Hb
      as (t' & Hin & Hcls).
    rewrite List.Forall_forall in Hall.
    destruct (Hall t' (proj1 (list_elem_of_In _ _) Hin)) as [Hn|Hn];
      rewrite Hn in Hcls; by destruct Hcls.
Qed.


Lemma handler_class_of_other name :
  name ∉ ["info"; "set_option"; "query"; "init_chain"; "begin_block";
          "deliver_tx"; "end_block"; "commit"; "list_snapshots";
          "offer_snapshot"; "load_snapshot_chunk"; "apply_snapshot_chunk";
          "check_tx"] ->
  handler_class_of name = None.
Proof.
  intros Hn. unfold handler_class_of.
  destruct (decide _) as [Hin|_].
  { exfalso. apply Hn.
    repeat (apply elem_of_cons in Hin as [-> | Hin]);
      try (by apply elem_of_nil in Hin); by apply (bool_decide_unpack _). }
  destruct (decide _) as [Hin|_].
  { exfalso. apply Hn.
    repeat (apply elem_of_cons in Hin as [-> | Hin]);
      try (by apply elem_of_nil in Hin); by apply (bool_decide_unpack _). }
  destruct (decide _) as [Hin|_].
  { exfalso. apply Hn.
    repeat (apply elem_of_cons in Hin as [-> | Hin]);
      try (by apply elem_of_nil in Hin); by apply (bool_decide_unpack _). }
  destruct (decide _) as [->|_]; [|done].
  exfalso. apply Hn. by apply (bool_decide_unpack _).
Qed.

(** C8. A created task run while no handler is bound awaits the factory for
    the class its name selects: the informational names the info handler,
    the consensus names the consensus handler, the state-sync names the
    state-sync handler, [check_tx] the mempool handler; when the factory
    returns a handler, that handler is bound. Any other name ends the
    coroutine without a factory call and leaves the handler unbound, so the
    next request that starts is classified in the same way. *)
Theorem first_request_selects_handler w tid t :
  loop_tasks w !! tid = Some t -> task_coro t = Created -> handler w = None ->
  let name := task_name t in
  let w' := step (EvStart tid) w in
  (name ∈ ["info"; "set_option"; "query"] ->
   loop_tasks w' !! tid = Some (set_coro (AwaitFactory InfoHandler) t)) /\
  (name ∈ ["init_chain"; "begin_block"; "deliver_tx"; "end_block"; "commit"] ->
   loop_tasks w' !! tid = Some (set_coro (AwaitFactory ConsensusHandler) t)) /\
  (name ∈ ["list_snapshots"; "offer_snapshot"; "load_snapshot_chunk";
           "apply_snapshot_chunk"] ->
   loop_tasks w' !! tid = Some (set_coro (AwaitFactory StateSyncHandler) t)) /\
  (name = "check_tx" ->
   loop_tasks w' !! tid = Some (set_coro (AwaitFactory MempoolHandler) t)) /\
  (forall cls h,
     loop_tasks w' !! tid = Some (set_coro (AwaitFactory cls) t) ->
     handler (step (EvFactory tid (Return h)) w') = Some h) /\
  (name ∉ ["info"; "set_option"; "query"; "init_chain"; "begin_block";
           "deliver_tx"; "end_block"; "commit"; "list_snapshots";
           "offer_snapshot"; "load_snapshot_chunk"; "apply_snapshot_chunk";
           "check_tx"] ->
   handler w' = None /\
   (exists r, loop_tasks w' !! tid = Some (set_coro (Finished r) t)) /\
   forall tid2 t2 cls,
     tid2 <> tid -> loop_tasks w !! tid2 = Some t2 ->
     task_coro t2 = Created -> handler_class_of (task_name t2) = Some cls ->
     loop_tasks (step (EvStart tid2) w') !! tid2 =
       Some (set_coro (AwaitFactory cls) t2)).
Proof.
  intros Ht Hc Hh name w'. subst w'. rewrite (step_start w tid t Ht Hc).
  fold name.
  assert (Hcls : forall cls, handler_class_of name = Some cls ->
    loop_tasks (set_loop_tasks
      (<[tid := set_coro (async_response name (task_message t) w) t]>
         (loop_tasks w)) w) !! tid = Some (set_coro (AwaitFactory cls) t)).
  { intros cls Hcls. rewrite <- (lookup_started w tid t _ Ht).
    do 3 f_equal. unfold async_response. by rewrite Hh, Hcls. }
  split_and!.
  - intros Hin. apply Hcls.
    repeat (apply elem_of_cons in Hin as [-> | Hin]); try reflexivity.
    by apply elem_of_nil in Hin.
  - intros Hin. apply Hcls.
    repeat (apply elem_of_cons in Hin as [-> | Hin]); try reflexivity.
    by apply elem_of_nil in Hin.
  - intros Hin. apply Hcls.
    repeat (apply elem_of_cons in Hin as [-> | Hin]); try reflexivity.
    by apply elem_of_nil in Hin.
  - intros Hn. apply Hcls. by rewrite Hn.
  - intros cls h Hw. by rewrite (step_factory _ tid _ cls h Hw eq_refl).
  - intros Hother. apply handler_class_of_other in Hother.
    assert (Hfin : async_response name (task_message t) w =
                   Finished (async_response_reply name (task_message t) None)).
    { unfold async_response, async_response_dispatch. by rewrite Hh, Hother. }
    rewrite Hfin. split_and!; [done| |].
    + eexists. by apply lookup_started.
    + intros tid2 t2 cls Hne Ht2 Hc2 Hcls2.
      set (w1 := set_loop_tasks _ w).
      assert (Ht2' : loop_tasks w1 !! tid2 = Some t2).
      { subst w1. cbn. by rewrite list_lookup_insert_ne. }
      rewrite (step_start w1 tid2 t2 Ht2' Hc2).
      rewrite <- (lookup_started w1 tid2 t2 _ Ht2'). do 3 f_equal.
      unfold async_response. subst w1. cbn [handler set_loop_tasks].
      by rewrite Hh, Hcls2.
Qed.

(** C10. When the operation a task awaits on the bound handler returns
    nothing, the request counts as unanswered: an echo task ends with the
    echo of its message, a flush task with the empty acknowledgement, and a
    task of any other name fails with the NotImplementedError of its name, for
    which draining writes no frame. The event itself writes nothing. *)
Theorem handler_returning_nothing w tid t :
  loop_tasks w !! tid = Some t -> task_coro t = AwaitHandler ->
  let w' := step (EvHandler tid (Return None)) w in
  transport w' = transport w /\
  (forall m, task_name t = "echo" -> task_message t = RequestEcho m ->
     loop_tasks w' !! tid =
       Some (set_coro (Finished (Return (ResponseEcho m))) t)) /\
  (task_name t = "flush" ->
     loop_tasks w' !! tid = Some (set_coro (Finished (Return ResponseFlush)) t)) /\
  (task_name t <> "echo" -> task_name t <> "flush" ->
     loop_tasks w' !! tid =
       Some (set_coro (Finished (Raise (not_implemented (task_name t)))) t) /\
     frames_of w' (task_name t, tid) = []).
Proof.
  intros Ht Hc w'. subst w'. rewrite (step_handler w tid t _ Ht Hc).
  unfold async_response_handled. split_and!.
  - done.
  - intros m Hn Hm. rewrite <- (lookup_started w tid t _ Ht).
    do 3 f_equal. unfold async_response_reply. rewrite Hn, Hm. reflexivity.
  - intros Hn. rewrite <- (lookup_started w tid t _ Ht).
    do 3 f_equal. unfold async_response_reply. rewrite Hn. reflexivity.
  - intros Hecho Hflush.
    assert (Hreply : async_response_reply (task_name t) (task_message t) None =
                     Raise (not_implemented (task_name t))).
    { unfold async_response_reply. by rewrite !decide_False. }
    rewrite Hreply. split; [by apply lookup_started|].
    unfold frames_of. cbn [snd]. rewrite (lookup_started w tid t _ Ht).
    by destruct t.
Qed.

End Reachable.

(** ** Binding without a race *)

Section Binding.

Variable parse_request : bytes -> Outcome (string * Message).
Variable serialize_response : string -> Message -> Outcome bytes.
Variable self : nat.

#[local] Abbreviation step := (step parse_request serialize_response self).
#[local] Abbreviation run := (run parse_request serialize_response self).

Lemma async_response_bound_handler name message w h cls :
  handler w = Some h -> async_response name message w <> AwaitFactory cls.
Proof.
  intros Hh. unfold async_response. rewrite Hh.
  apply async_response_dispatch_not_factory.
Qed.

Lemma step_keeps_bound_handler ev w h :
  handler w = Some h /\ no_bind_pending w ->
  handler (step ev w) = Some h /\ no_bind_pending (step ev w).
Proof.
  intros [Hh Hnone]. unfold no_bind_pending in *.
  destruct ev as [data|exc|tid|tid r|tid r|tid|cid|cid]; cbn [step].
  - destruct (data_received parse_request data w) as [[w' got] r] eqn:H.
    apply data_received_grows in H
      as (new & Hh' & _ & _ & _ & _ & Hlt & _ & Hnew).
    destruct (report_fields r w') as (Hlt' & _ & Hh'' & _).
    split; [by rewrite Hh'', Hh'|]. rewrite Hlt', Hlt. apply Forall_app.
    split; [done|]. eapply Forall_impl; [exact Hnew|].
    intros t [Hc _] cls. by rewrite Hc.
  - done.
  - destruct (loop_tasks w !! tid) as [[n m [| | |?] cbs]|] eqn:Ht; try done.
    unfold update_task. rewrite Ht. split; [done|]. cbn.
    apply Forall_insert; [done|]. intros cls.
    by apply (async_response_bound_handler n m w h cls).
  - destruct (loop_tasks w !! tid) as [[n m [|cls| |?] cbs]|] eqn:Ht; try done.
    exfalso. rewrite List.Forall_forall in Hnone.
    apply (Hnone _ (proj1 (list_elem_of_In _ _)
                      (list_elem_of_lookup_2 _ _ _ Ht)) cls eq_refl).
  - destruct (loop_tasks w !! tid) as [[n m [| | |?] cbs]|] eqn:Ht; try done.
    unfold update_task. rewrite Ht. split; [done|]. cbn.
    apply Forall_insert; [done|]. intros cls. cbn. by destruct r.
  - destruct (loop_tasks w !! tid) as [[n m [| | |r0] [|cb cbs]]|] eqn:Ht;
      try done.
    pose proof (call_callback_same_tasks serialize_response self cb 1
                  (update_task tid (set_callbacks cbs) w)) as (Hlt & _ & Hh').
    destruct (call_callback _ _ cb 1 _) as [w2 r2]. cbn in Hlt, Hh'.
    destruct (report_fields r2 w2) as (Hlt' & _ & Hh'' & _).
    split.
    + rewrite Hh'', Hh'. unfold update_task. by rewrite Ht.
    + rewrite Hlt', Hlt. unfold update_task. rewrite Ht. cbn.
      by apply Forall_insert.
  - by destruct (close_tasks w !! cid) as [[exc [| |?] cbs]|].
  - destruct (close_tasks w !! cid) as [[exc [| |?] [|cb cbs]]|]; try done.
    match goal with |- context [call_callback _ _ cb 1 ?w1] =>
      pose proof (call_callback_same_tasks serialize_response self cb 1 w1)
        as (Hlt & _ & Hh') end.
    destruct (call_callback _ _ cb 1 _) as [w2 r2]. cbn in Hlt, Hh'.
    destruct (report_fields r2 w2) as (Hlt' & _ & Hh'' & _).
    split; [by rewrite Hh'', Hh'|by rewrite Hlt', Hlt].
Qed.

(** X19. Once a handler is bound and no request task is still suspended in
    a factory call, no later event changes the binding: requests that start
    afterwards never call the factory, whatever their category. *)
Lemma bound_handler_is_kept evs w h :
  handler w = Some h -> no_bind_pending w ->
  handler (run evs w) = Some h.
Proof.
  intros Hh Hnone.
  apply (run_ind parse_request serialize_response self
           (fun w => handler w = Some h /\ no_bind_pending w));
    [intros ev w0; apply step_keeps_bound_handler|done].
Qed.

End Binding.

(** ** The engine on concrete traffic *)

Example encode_varint_128 : encode_varint 128 = [x80; x01].
Proof. reflexivity. Qed.

Example decode_varint_128 : decode_varint [x80; x01; x2a] 0 = Return (128%N, 2).
Proof. reflexivity. Qed.

Example decode_varint_cut : decode_varint [x80] 0 = Raise VarintTruncated.
Proof. reflexivity. Qed.

Example frame_empty_payload : frame [] = [x00].
Proof. reflexivity. Qed.

(** Completion in the order 2, 1, 0: nothing is written before unit 0 is
    done, then the three responses go out in request order. *)
Example pipelined_out_of_order :
  transport (Sample.run [EvHandler 2 (Sample.reply x0c); EvCallback 2;
                         EvHandler 1 (Sample.reply x0b); EvCallback 1]
               Sample.pipelined) = [] /\
  transport (Sample.run [EvHandler 2 (Sample.reply x0c); EvCallback 2;
                         EvHandler 1 (Sample.reply x0b); EvCallback 1;
                         EvHandler 0 (Sample.reply x0a); EvCallback 0]
               Sample.pipelined) =
    [[x04]; [x03; x0a]; [x04]; [x03; x0b]; [x04]; [x03; x0c]].
Proof. by vm_compute. Qed.

(** The short circuit on the sample echo request. *)
Lemma echo_flush_short_circuit_witness :
  loop_tasks (Sample.step (EvStart 0) Sample.echo_received) !! 0 =
    Some (set_coro (Finished (Return (ResponseEcho "AB"))) Sample.echo_task) /\
  handler (Sample.step (EvStart 0) Sample.echo_received) = None.
Proof.
  refine (proj1 (echo_flush_short_circuit Sample.parse_request
                   Sample.serialize_response Sample.self
                   Sample.echo_received 0 Sample.echo_task _ _ _) "AB" _ _);
    reflexivity.
Defined.



(** The sample info request selects the info handler. *)
Lemma first_request_selects_handler_witness :
  loop_tasks (Sample.step (EvStart 0) Sample.info_received) !! 0 =
    Some (set_coro (AwaitFactory InfoHandler) Sample.info_task).
Proof.
  refine (proj1 (first_request_selects_handler Sample.parse_request
                   Sample.serialize_response Sample.self
                   Sample.info_received 0 Sample.info_task _ _ _) _);
    [reflexivity|reflexivity|reflexivity|].
  apply list_elem_of_here.
Defined.

(** The failed sample unit leaves the deque when drained. *)
Lemma drained_head_is_removed_witness :
  tasks (process_response_task Sample.serialize_response "" 0
           Sample.unknown_failed).1 = [].
Proof.
  unfold Sample.unknown_failed, Sample.run, Sample.accepted.
  generalize (drained_head_is_removed Sample.parse_request
                Sample.serialize_response Sample.self
                [EvData (frame []); EvStart 0] "" 0 [] eq_refl).
  destruct (process_response_task _ _ _ _) as [w' r]. intros H.
  exact (proj1 H).
Defined.

(** The sample info operation returns nothing. *)
Lemma handler_returning_nothing_witness :
  loop_tasks (Sample.step (EvHandler 0 (Return None)) Sample.info_in_handler) !! 0 =
    Some (set_coro (Finished (Raise (not_implemented "info")))
            (set_coro AwaitHandler Sample.info_task)).
Proof.
  refine (proj1 (proj2 (proj2 (proj2
            (handler_returning_nothing Sample.parse_request
               Sample.serialize_response Sample.self
               Sample.info_in_handler 0
               (set_coro AwaitHandler Sample.info_task) _ _))) _ _));
    [reflexivity|reflexivity|discriminate|discriminate].
Defined.

(** C4. The frame of a 64-byte payload has a two-byte length prefix. Fed in
    one call the payload is extracted; fed as a first fragment that ends
    inside the prefix, [decode_varint] runs off the buffer, [data_received]
    raises and nothing is extracted. *)
Theorem split_length_prefix_raises :
  frame Sample.long_info = x80 :: x01 :: Sample.long_info /\
  (Sample.data_received (frame Sample.long_info) Sample.accepted).1.2 =
    [Sample.long_info] /\
  (Sample.feed [frame Sample.long_info] Sample.accepted).1.2 =
    [Sample.long_info] /\
  (Sample.data_received [x80] Sample.accepted).2 = Raise VarintTruncated /\
  (Sample.feed [[x80]; x01 :: Sample.long_info] Sample.accepted).1.2 = [] /\
  (Sample.feed [[x80]; x01 :: Sample.long_info] Sample.accepted).2 =
    Raise VarintTruncated.
Proof. by vm_compute. Qed.

(** C3. An info and a deliver_tx request read together both find no handler
    bound and both await the factory. The first answer binds the info
    handler, the second replaces it with the consensus handler, and a query
    request that starts afterwards is looked up on the consensus handler and
    fails as unimplemented. *)
Theorem racing_requests_rebind_handler :
  handler Sample.both_waiting = None /\
  map task_coro (loop_tasks Sample.both_waiting) =
    [AwaitFactory InfoHandler; AwaitFactory ConsensusHandler] /\
  handler (Sample.step (EvFactory 0 (Return Sample.info_handler))
             Sample.both_waiting) = Some Sample.info_handler /\
  handler (Sample.run [EvFactory 0 (Return Sample.info_handler);
                       EvFactory 1 (Return Sample.consensus_handler)]
             Sample.both_waiting) = Some Sample.consensus_handler /\
  Sample.info_handler <> Sample.consensus_handler /\
  map task_coro
    (loop_tasks
       (Sample.run [EvFactory 0 (Return Sample.info_handler);
                    EvFactory 1 (Return Sample.consensus_handler);
                    EvData (frame [x05]); EvStart 2]
          Sample.both_waiting)) =
    [AwaitHandler; AwaitHandler; Finished (Raise (not_implemented "query"))].
Proof. by vm_compute. Qed.

(** C2. A connection that was accepted is in the connection set after any
    sequence of events: the teardown callback is called with one argument,
    takes none, and raises before it discards anything. On the sample
    connection, lost while a request waits in its handler operation, the
    teardown coroutine ends with the RuntimeError of the first
    [set_exception], the waiting task is still waiting, the TypeError of the
    callback reaches the loop and the connection is still registered. *)
Theorem teardown_never_deregisters :
  (forall parse_request serialize_response self evs,
     self ∈ connections
              (run parse_request serialize_response self evs (accepted self))) /\
  map task_coro (loop_tasks Sample.info_in_handler) = [AwaitHandler] /\
  map task_coro (loop_tasks Sample.torn_down) = [AwaitHandler] /\
  map close_coro (close_tasks Sample.torn_down) =
    [CloseFinished
       (Raise (RuntimeError "Task does not support set_exception operation"))] /\
  loop_errors Sample.torn_down =
    [TypeError "<lambda>() got an unexpected number of positional arguments"] /\
  Sample.self ∈ connections Sample.torn_down.
Proof.
  split; [apply connection_never_discarded|].
  split_and!; by vm_compute.
Qed.

(** * Further properties *)

(** ** Ingestion *)

Section IngestionMore.

Variable parse_request : bytes -> Outcome (string * Message).

Lemma grown_by_cons name message new w w' :
  grown_by new (process_request name message w) w' ->
  grown_by ({| task_name := name; task_message := message;
               task_coro := Created; task_callbacks := [drain_callback] |}
            :: new) w w'.
Proof.
  intros (Hh & Htr & Hc & Hcs & Hle & Hlt & Hq & Hnew).
  cbn in Hh, Htr, Hc, Hcs, Hle, Hlt, Hq.
  unfold grown_by. split_and!; try done.
  - by rewrite Hlt, <- app_assoc.
  - rewrite Hq, <- app_assoc. cbn [imap app]. f_equal. f_equal.
    + by rewrite Nat.add_0_r.
    + apply imap_ext. intros i t _. cbn. rewrite length_app. cbn.
      f_equal. lia.
  - by constructor.
Qed.

Lemma grown_by_buffer new b w w' :
  grown_by new (set_buffer b w) w' -> grown_by new w w'.
Proof. done. Qed.

Lemma data_received_loop_units fuel : forall w acc w' got r,
  data_received_loop parse_request fuel w acc = (w', got, r) ->
  exists new ds,
    grown_by new w w' /\ Forall2 (parsed_as parse_request) ds new /\
    (got = acc ++ ds \/
     exists d e, got = acc ++ ds ++ [d] /\ parse_request d = Raise e /\
                 r = Raise e).
Proof.
  induction fuel as [|fuel IH]; intros w acc w' got r H;
    cbn [data_received_loop] in H.
  { injection H as <- <- <-. exists [], []. rewrite app_nil_r.
    split_and!; [by apply grown_by_nil|constructor|by left]. }
  destruct (buffer w) as [|b0 buf0] eqn:Hbuf.
  { injection H as <- <- <-. exists [], []. rewrite app_nil_r.
    split_and!; [by apply grown_by_nil|constructor|by left]. }
  rewrite <- Hbuf in H. clear b0 buf0 Hbuf.
  destruct (decode_varint _ 0) as [e|[v pos]].
  { injection H as <- <- <-. exists [], []. rewrite app_nil_r.
    split_and!; [by apply grown_by_nil|constructor|by left]. }
  destruct (_ <=? _)%N.
  2:{ injection H as <- <- <-. exists [], []. rewrite app_nil_r.
      split_and!; [by apply grown_by_nil|constructor|by left]. }
  destruct (parse_request _) as [e|[name message]] eqn:Hparse.
  { injection H as <- <- <-. exists [], [].
    split_and!; [by apply grown_by_nil|constructor|].
    right. eexists _, e. by split_and!. }
  apply IH in H as (new & ds & Hg & Hds & Hgot).
  apply grown_by_cons, grown_by_buffer in Hg.
  eexists (_ :: new), (_ :: ds). split_and!; [exact Hg| |].
  - constructor; [exact Hparse|exact Hds].
  - destruct Hgot as [-> | (d & e & -> & Hd & ->)].
    + left. by rewrite <- app_assoc.
    + right. exists d, e. by rewrite <- !app_assoc.
Qed.

(** X3. Whatever bytes arrive, a call of [data_received] creates one unit
    for every extracted payload the parser accepted, in extraction order,
    each not yet started and with the drain callback, appended behind the
    units already pending; the handler, the transport, the teardown tasks and
    the connection set are as before. The only extracted payload without a
    unit is the one on which the parser raised, which ends the call. *)
Theorem units_follow_extracted_payloads data w :
  let '(w', got, r) := data_received parse_request data w in
  exists new,
    grown_by new w w' /\
    Forall2 (parsed_as parse_request) (take (length new) got) new /\
    (length got = length new \/
     exists d e, got = take (length new) got ++ [d] /\
                 parse_request d = Raise e /\ r = Raise e).
Proof.
  destruct (data_received parse_request data w) as [[w' got] r] eqn:H.
  unfold data_received in H.
  apply data_received_loop_units in H as (new & ds & Hg & Hds & Hgot).
  apply grown_by_buffer in Hg. exists new. split; [exact Hg|].
  pose proof (Forall2_length _ _ _ Hds) as Hlen. cbn [app] in Hgot.
  destruct Hgot as [-> | (d & e & -> & Hd & ->)].
  - rewrite <- Hlen, firstn_all. split; [done|by left].
  - rewrite <- Hlen, take_app_length. split; [done|]. right.
    exists d, e. by split_and!.
Qed.

Lemma data_received_loop_frames payloads : forall fuel w acc,
  Forall (fun p => (N.of_nat (length p) < 2 ^ 69)%N) payloads ->
  Forall (fun p => exists nm, parse_request p = Return nm) payloads ->
  buffer w = concat (map frame payloads) -> length (buffer w) <= fuel ->
  exists w', data_received_loop parse_request fuel w acc =
               (w', acc ++ payloads, Return tt) /\ buffer w' = [].
Proof.
  induction payloads as [|p payloads IH]; intros fuel w acc Hshort Hok Hbuf Hfuel.
  { exists w. rewrite app_nil_r. split; [|done].
    by apply data_received_loop_empty. }
  apply Forall_cons in Hshort as [Hp Hshort].
  apply Forall_cons in Hok as [[[name message] Hparse] Hok].
  cbn [map concat] in Hbuf. unfold frame in Hbuf at 1.
  set (P := encode_varint (N.shiftl (N.of_nat (length p)) 1)) in *.
  set (rest := concat (map frame payloads)) in *.
  rewrite <- app_assoc in Hbuf.
  assert (HP : 1 <= length P)
    by (by apply encode_varint_nonempty, payload_length_fits).
  assert (Hlen : length (buffer w) = length P + length p + length rest).
  { rewrite Hbuf, !length_app. lia. }
  destruct fuel as [|fuel]; [lia|].
  rewrite data_received_loop_unfold.
  2:{ intros Hnil. rewrite Hnil in Hlen. cbn in Hlen. lia. }
  rewrite Hbuf.
  unfold P at 1. rewrite decode_frame_prefix by done. fold P. cbn zeta.
  assert (Hshr : N.shiftr (N.shiftl (N.of_nat (length p)) 1) 1 =
                 N.of_nat (length p)).
  { by rewrite N.shiftr_shiftl_l, N.sub_diag, N.shiftl_0_r. }
  rewrite Hshr, Nat2N.id.
  assert ((N.of_nat (length P) + N.of_nat (length p) <=?
           N.of_nat (length (P ++ p ++ rest)))%N = true)
    as -> by (apply N.leb_le; rewrite !length_app; lia).
  rewrite drop_app_length, take_app_length, Hparse.
  assert (Hdrop : drop (length P + length p) (P ++ p ++ rest) = rest).
  { rewrite <- drop_drop, drop_app_length, drop_app_length. done. }
  rewrite Hdrop.
  destruct (IH fuel (process_request name message (set_buffer rest w))
              (acc ++ [p]) Hshort Hok) as (w' & Hrun & Hb).
  - done.
  - cbn. lia.
  - exists w'. rewrite Hrun, <- app_assoc. done.
Qed.

Lemma data_received_back_to_back payloads w :
  buffer w = [] ->
  Forall (fun p => (N.of_nat (length p) < 2 ^ 69)%N) payloads ->
  Forall (fun p => exists nm, parse_request p = Return nm) payloads ->
  exists w', data_received parse_request (concat (map frame payloads)) w =
               (w', payloads, Return tt) /\ buffer w' = [].
Proof.
  intros Hw Hshort Hok. unfold data_received. cbn [buffer set_buffer].
  rewrite Hw. cbn [app].
  by apply (data_received_loop_frames payloads _ _ []).
Qed.

(** X2. Frames that arrive together are all surfaced by the one call: for
    payloads shorter than [2^69] bytes that the parser accepts, received back
    to back by a connection with an empty buffer, [data_received] extracts
    exactly these payloads in order, creates one unit for each in that order,
    empties the buffer and returns. *)
Theorem pipelined_frames_are_all_extracted payloads w :
  buffer w = [] ->
  Forall (fun p => (N.of_nat (length p) < 2 ^ 69)%N) payloads ->
  Forall (fun p => exists nm, parse_request p = Return nm) payloads ->
  let '(w', got, r) :=
    data_received parse_request (concat (map frame payloads)) w in
  got = payloads /\ buffer w' = [] /\ r = Return tt /\
  exists new, grown_by new w w' /\ Forall2 (parsed_as parse_request) payloads new.
Proof.
  intros Hw Hshort Hok.
  destruct (data_received_back_to_back payloads w Hw Hshort Hok)
    as (w' & Hrun & Hb).
  rewrite Hrun. split_and!; try done.
  unfold data_received in Hrun.
  apply data_received_loop_units in Hrun
    as (new & ds & Hg & Hds & [Hgot | (d & e & _ & _ & [=])]).
  cbn [app] in Hgot. subst ds. exists new. by split.
Qed.

End IngestionMore.

(** ** The drain *)

Lemma deque_remove_absent x d : x ∉ d -> deque_remove x d = None.
Proof.
  induction d as [|y d IH]; intros Hx; cbn [deque_remove]; [done|].
  apply not_elem_of_cons in Hx as [Hne Hx].
  rewrite decide_False by done. by rewrite IH.
Qed.

Section DrainMore.

Variable serialize_response : string -> Message -> Outcome bytes.

#[local] Abbreviation frames_of := (frames_of serialize_response).
#[local] Abbreviation process_response_task :=
  (process_response_task serialize_response).
#[local] Abbreviation process_response_tasks :=
  (process_response_tasks serialize_response).

(** X4. One call of [process_response_tasks] takes some number [k] of units
    off the head of the deque, all of them done, writes their frames in
    deque order and touches nothing else; when it returns without raising it
    has gone as far as it can: the deque is empty or its head is still
    pending. *)
Theorem drain_runs_to_first_pending w :
  let '(w', r) := process_response_tasks w in
  same_but_queue w w' /\
  (exists k,
      k <= length (tasks w) /\ tasks w' = drop k (tasks w) /\
      transport w' =
        transport w ++ concat (map (frames_of w) (take k (tasks w))) /\
      Forall (fun u => task_done w u.2 = true) (take k (tasks w))) /\
  (r = Return tt ->
   tasks w' = [] \/
   exists name tid rest, tasks w' = (name, tid) :: rest /\
                         task_done w' tid = false).
Proof.
  pose proof (process_response_tasks_stops serialize_response w) as Hstop.
  unfold process_response_tasks in *.
  destruct (process_response_tasks_loop _ _ w) as [w' r] eqn:H.
  apply process_response_tasks_loop_effect in H as [Hsame Hk].
  by split_and!.
Qed.

Lemma process_response_tasks_head_raises w name tid rest w1 e :
  tasks w = (name, tid) :: rest -> task_done w tid = true ->
  process_response_task name tid w = (w1, Raise e) ->
  process_response_tasks w = (w1, Raise e).
Proof.
  intros Hq Hdone Hone. unfold process_response_tasks. rewrite Hq.
  cbn [length process_response_tasks_loop]. by rewrite Hq, Hdone, Hone.
Qed.

(** X5. A head unit whose computation raised stops the drain at once: the
    call removes that unit, raises its exception and changes nothing else.
    Units behind it stay in the deque, written by a later call at the
    earliest, also when they are already done. *)
Theorem failed_head_stops_the_drain w name tid rest t e :
  tasks w = (name, tid) :: rest ->
  loop_tasks w !! tid = Some t -> task_coro t = Finished (Raise e) ->
  process_response_tasks w = (set_tasks rest w, Raise e).
Proof.
  intros Hq Ht Hc.
  apply (process_response_tasks_head_raises w name tid rest); [done| |].
  - unfold task_done. rewrite Ht. destruct t; cbn in Hc. by subst.
  - unfold process_response_task. rewrite Ht. destruct t; cbn in Hc. subst.
    cbn [tasks]. by rewrite Hq, deque_remove_head.
Qed.

(** X6. A head unit whose result does not serialise is dropped in the same
    way: nothing of it is written, not even a length prefix, the unit is
    removed and the serialiser's exception leaves the drain. *)
Theorem unserialisable_result_is_dropped w name tid rest t m e :
  tasks w = (name, tid) :: rest ->
  loop_tasks w !! tid = Some t -> task_coro t = Finished (Return m) ->
  serialize_response name m = Raise e ->
  process_response_tasks w = (set_tasks rest w, Raise e).
Proof.
  intros Hq Ht Hc Hser.
  apply (process_response_tasks_head_raises w name tid rest); [done| |].
  - unfold task_done. rewrite Ht. destruct t; cbn in Hc. by subst.
  - unfold process_response_task, process_response. rewrite Ht.
    destruct t; cbn in Hc. subst. rewrite Hser.
    cbn [tasks]. by rewrite Hq, deque_remove_head.
Qed.

(** X7. A done head unit whose result serialises to [data] is written as
    the varint of twice the length of [data] followed by [data], serialised
    under the request's own name; with a pending unit (or none) behind it the
    call does exactly that and removes the unit. *)
Theorem done_head_is_written_framed w name tid rest t m data :
  tasks w = (name, tid) :: rest ->
  loop_tasks w !! tid = Some t -> task_coro t = Finished (Return m) ->
  serialize_response name m = Return data ->
  (forall name2 tid2 rest2, rest = (name2, tid2) :: rest2 ->
                            task_done w tid2 = false) ->
  process_response_tasks w =
    (set_tasks rest (set_transport (transport w ++ frame_writes data) w),
     Return tt).
Proof.
  intros Hq Ht Hc Hser Hnext. unfold process_response_tasks. rewrite Hq.
  cbn [length process_response_tasks_loop]. rewrite Hq.
  assert (Hdone : task_done w tid = true).
  { unfold task_done. rewrite Ht. destruct t; cbn in Hc. by subst. }
  rewrite Hdone. unfold process_response_task, process_response. rewrite Ht.
  destruct t; cbn in Hc. subst. rewrite Hser.
  cbn [tasks set_transport]. rewrite Hq, deque_remove_head.
  destruct rest as [|[name2 tid2] rest2].
  - by destruct (length _).
  - cbn [length process_response_tasks_loop tasks set_tasks].
    assert (Hd2 : task_done (set_tasks ((name2, tid2) :: rest2)
                    (set_transport (transport w ++ frame_writes data) w)) tid2
                  = false) by (by apply (Hnext name2 tid2 rest2)).
    unfold frame_writes in *. by rewrite Hd2.
Qed.

(** X8. [process_response_task] for a unit that is not in the deque: the
    [finally] clause's [remove] raises ValueError, which replaces whatever
    the body raised, the deque stays as it is, and a result that serialises
    has been written all the same. *)
Theorem unqueued_unit_raises_value_error w name tid :
  (name, tid) ∉ tasks w ->
  let '(w', r) := process_response_task name tid w in
  r = Raise (ValueError "deque.remove(x): x not in deque") /\
  tasks w' = tasks w /\
  transport w' = transport w ++ frames_of w (name, tid).
Proof.
  intros Hout. unfold process_response_task, process_response, frames_of.
  cbn [fst snd].
  destruct (loop_tasks w !! tid) as [[n m [| | |[e|v]] cbs]|];
    try (cbn [tasks]; rewrite (deque_remove_absent _ _ Hout);
         by rewrite app_nil_r).
  destruct (serialize_response name v) as [e|data]; cbn [tasks set_transport];
    rewrite (deque_remove_absent _ _ Hout); [by rewrite app_nil_r|done].
Qed.

End DrainMore.

(** ** Events *)

Section EventsMore.

Variable parse_request : bytes -> Outcome (string * Message).
Variable serialize_response : string -> Message -> Outcome bytes.
Variable self : nat.

#[local] Abbreviation step := (step parse_request serialize_response self).
#[local] Abbreviation run := (run parse_request serialize_response self).
#[local] Abbreviation accepted := (accepted self).
#[local] Abbreviation call_callback := (call_callback serialize_response self).

Lemma call_callback_transport cb nargs w :
  transport w `prefix_of` transport (call_callback cb nargs w).1.
Proof.
  unfold call_callback. destruct (decide (arity cb = nargs)); [|done].
  destruct (action cb); [|done]. unfold process_response_tasks.
  destruct (process_response_tasks_loop _ _ w) as [w' r] eqn:H.
  apply process_response_tasks_loop_effect in H as (_ & k & _ & _ & Htr & _).
  cbn [fst]. rewrite Htr. by eexists.
Qed.

Lemma step_transport ev w : transport w `prefix_of` transport (step ev w).
Proof.
  destruct ev as [data|exc|tid|tid r|tid r|tid|cid|cid]; cbn [step].
  - destruct (data_received parse_request data w) as [[w' got] r] eqn:H.
    apply data_received_grows in H as (new & _ & Htr & _).
    destruct (report_fields r w') as (_ & _ & _ & _ & -> & _). by rewrite Htr.
  - done.
  - destruct (loop_tasks w !! tid) as [[n m [| | |?] cbs]|] eqn:Ht; try done.
    unfold update_task. by rewrite Ht.
  - destruct (loop_tasks w !! tid) as [[n m [| | |?] cbs]|] eqn:Ht; try done.
    destruct r as [e|h]; cbn [async_response_bound]; unfold update_task;
      cbn; by rewrite Ht.
  - destruct (loop_tasks w !! tid) as [[n m [| | |?] cbs]|] eqn:Ht; try done.
    unfold update_task. by rewrite Ht.
  - destruct (loop_tasks w !! tid) as [[n m [| | |r0] [|cb cbs]]|] eqn:Ht;
      try done.
    pose proof (call_callback_transport cb 1
                  (update_task tid (set_callbacks cbs) w)) as Hp.
    destruct (call_callback cb 1 _) as [w2 r2]. cbn [fst] in Hp.
    destruct (report_fields r2 w2) as (_ & _ & _ & _ & -> & _).
    unfold update_task in Hp. by rewrite Ht in Hp.
  - by destruct (close_tasks w !! cid) as [[exc [| |?] cbs]|].
  - destruct (close_tasks w !! cid) as [[exc [| |?] [|cb cbs]]|]; try done.
    match goal with |- context [call_callback cb 1 ?w1] =>
      pose proof (call_callback_transport cb 1 w1) as Hp end.
    destruct (call_callback cb 1 _) as [w2 r2]. cbn [fst] in Hp.
    by destruct (report_fields r2 w2) as (_ & _ & _ & _ & -> & _).
Qed.

(** X9. What has been written stays written: after any further events the
    writes made on the transport so far are a prefix of the writes made. No
    event retracts, reorders or rewrites a write. *)
Theorem transport_only_grows evs w :
  transport w `prefix_of` transport (run evs w).
Proof.
  revert w. induction evs as [|ev evs IH]; intros w; [done|].
  change (run (ev :: evs) w) with (run evs (step ev w)).
  etrans; [apply step_transport|apply IH].
Qed.

Lemma step_handler_source ev w :
  handler (step ev w) = handler w \/
  exists tid h, ev = EvFactory tid (Return h) /\ handler (step ev w) = Some h.
Proof.
  destruct ev as [data|exc|tid|tid r|tid r|tid|cid|cid]; cbn [step].
  - left. destruct (data_received parse_request data w) as [[w' got] r] eqn:H.
    apply data_received_grows in H as (new & Hh & _).
    destruct (report_fields r w') as (_ & _ & -> & _). done.
  - by left.
  - left. destruct (loop_tasks w !! tid) as [[n m [| | |?] cbs]|] eqn:Ht;
      try done.
    unfold update_task. by rewrite Ht.
  - destruct (loop_tasks w !! tid) as [[n m [| | |?] cbs]|] eqn:Ht;
      try by left.
    destruct r as [e|h]; cbn [async_response_bound]; unfold update_task;
      cbn [loop_tasks set_handler]; rewrite Ht; [by left|].
    right. by exists tid, h.
  - left. destruct (loop_tasks w !! tid) as [[n m [| | |?] cbs]|] eqn:Ht;
      try done.
    unfold update_task. by rewrite Ht.
  - left.
    destruct (loop_tasks w !! tid) as [[n m [| | |r0] [|cb cbs]]|] eqn:Ht;
      try done.
    pose proof (call_callback_same_tasks serialize_response self cb 1
                  (update_task tid (set_callbacks cbs) w)) as (_ & _ & Hh).
    destruct (call_callback cb 1 _) as [w2 r2]. cbn [fst] in Hh.
    destruct (report_fields r2 w2) as (_ & _ & -> & _). rewrite Hh.
    unfold update_task. by rewrite Ht.
  - left. by destruct (close_tasks w !! cid) as [[exc [| |?] cbs]|].
  - left.
    destruct (close_tasks w !! cid) as [[exc [| |?] [|cb cbs]]|]; try done.
    match goal with |- context [call_callback cb 1 ?w1] =>
      pose proof (call_callback_same_tasks serialize_response self cb 1 w1)
        as (_ & _ & Hh) end.
    destruct (call_callback cb 1 _) as [w2 r2]. cbn [fst] in Hh.
    destruct (report_fields r2 w2) as (_ & _ & -> & _). by rewrite Hh.
Qed.

(** X10. The handler of a connection is never made up by the engine: a
    handler bound after a sequence of events is one that the application
    factory returned to one of its tasks in that sequence. *)
Theorem bound_handler_comes_from_factory evs h :
  handler (run evs accepted) = Some h ->
  exists tid, EvFactory tid (Return h) ∈ evs.
Proof.
  induction evs as [|ev evs IH] using rev_ind; [done|].
  rewrite run_app. change (run [ev] ?w) with (step ev w).
  intros Hh.
  destruct (step_handler_source ev (run evs accepted))
    as [Heq | (tid & h' & -> & Hh')].
  - rewrite Heq in Hh. destruct (IH Hh) as (tid & Hin). exists tid.
    apply elem_of_app. by left.
  - rewrite Hh' in Hh. injection Hh as ->. exists tid.
    apply elem_of_app. right. by apply list_elem_of_singleton.
Qed.

(** X11. A bound connection never becomes unbound: whatever happens after a
    handler is bound, some handler is bound. *)
Theorem bound_connection_stays_bound evs w h :
  handler w = Some h -> is_Some (handler (run evs w)).
Proof.
  revert w h. induction evs as [|ev evs IH]; intros w h Hh; [by eexists|].
  change (run (ev :: evs) w) with (run evs (step ev w)).
  destruct (step_handler_source ev w) as [Heq | (tid & h' & _ & Hh')].
  - apply (IH _ h). by rewrite Heq.
  - by apply (IH _ h').
Qed.

End EventsMore.

(** ** Dispatch and teardown *)

Section DispatchMore.

Variable parse_request : bytes -> Outcome (string * Message).
Variable serialize_response : string -> Message -> Outcome bytes.
Variable self : nat.

#[local] Abbreviation step := (step parse_request serialize_response self).
#[local] Abbreviation run := (run parse_request serialize_response self).


(** X13. When the factory call of a task fails while no handler is bound,
    the task ends with the factory's exception, the connection stays
    unbound, and the next categorised request that starts asks the factory
    again. *)
Theorem failed_bind_is_retried w tid t cls e :
  loop_tasks w !! tid = Some t -> task_coro t = AwaitFactory cls ->
  handler w = None ->
  handler (step (EvFactory tid (Raise e)) w) = None /\
  loop_tasks (step (EvFactory tid (Raise e)) w) !! tid =
    Some (set_coro (Finished (Raise e)) t) /\
  forall tid2 t2 cls2,
    tid2 <> tid -> loop_tasks w !! tid2 = Some t2 -> task_coro t2 = Created ->
    handler_class_of (task_name t2) = Some cls2 ->
    loop_tasks (run [EvFactory tid (Raise e); EvStart tid2] w) !! tid2 =
      Some (set_coro (AwaitFactory cls2) t2).
Proof.
  intros Ht Hc Hh.
  assert (Hs : step (EvFactory tid (Raise e)) w =
               set_loop_tasks
                 (<[tid := set_coro (Finished (Raise e)) t]> (loop_tasks w)) w).
  { cbn [step]. rewrite Ht. destruct t; cbn in Hc. subst.
    cbn [async_response_bound]. unfold update_task. by rewrite Ht. }
  split_and!.
  - by rewrite Hs.
  - rewrite Hs. by apply lookup_started.
  - intros tid2 t2 cls2 Hne Ht2 Hc2 Hcls.
    change (run [EvFactory tid (Raise e); EvStart tid2] w)
      with (step (EvStart tid2) (step (EvFactory tid (Raise e)) w)).
    rewrite Hs. set (w1 := set_loop_tasks _ w).
    assert (Ht2' : loop_tasks w1 !! tid2 = Some t2).
    { subst w1. cbn. by rewrite list_lookup_insert_ne. }
    rewrite (step_start parse_request serialize_response self w1 tid2 t2 Ht2' Hc2).
    rewrite <- (lookup_started w1 tid2 t2 _ Ht2'). do 3 f_equal.
    unfold async_response. subst w1. cbn [handler set_loop_tasks].
    by rewrite Hh, Hcls.
Qed.

(** X14. An exception raised by a handler operation is not turned into a
    response: when the waiting unit is at the head of the deque, the
    operation raising and the unit's callback running leave the transport as
    it was, remove the unit and hand the very exception to the event loop. *)
Theorem handler_failure_reaches_the_loop w name tid rest t cbs e :
  tasks w = (name, tid) :: rest ->
  loop_tasks w !! tid = Some t -> task_coro t = AwaitHandler ->
  task_callbacks t = drain_callback :: cbs ->
  transport (run [EvHandler tid (Raise e); EvCallback tid] w) = transport w /\
  tasks (run [EvHandler tid (Raise e); EvCallback tid] w) = rest /\
  loop_errors (run [EvHandler tid (Raise e); EvCallback tid] w) =
    loop_errors w ++ [e].
Proof.
  intros Hq Ht Hc Hcb.
  change (run [EvHandler tid (Raise e); EvCallback tid] w)
    with (step (EvCallback tid) (step (EvHandler tid (Raise e)) w)).
  rewrite (step_handler parse_request serialize_response self w tid t _ Ht Hc).
  cbn [async_response_handled]. set (w1 := set_loop_tasks _ w).
  assert (Ht1 : loop_tasks w1 !! tid = Some (set_coro (Finished (Raise e)) t))
    by (by apply lookup_started).
  cbn [step]. rewrite Ht1. destruct t as [n m c cb0]. cbn in Hc, Hcb. subst.
  cbn [set_coro task_coro task_callbacks task_name task_message].
  set (w2 := update_task tid (set_callbacks cbs) w1).
  assert (Hq2 : tasks w2 = (name, tid) :: rest).
  { subst w2. unfold update_task. by rewrite Ht1. }
  assert (Ht2 : loop_tasks w2 !! tid =
                Some (set_callbacks cbs
                        {| task_name := n; task_message := m;
                           task_coro := Finished (Raise e);
                           task_callbacks := drain_callback :: cbs |})).
  { subst w2. unfold update_task. rewrite Ht1. cbn.
    apply list_lookup_insert_eq. rewrite length_insert.
    by eapply lookup_lt_Some. }
  unfold call_callback. cbn [arity action drain_callback].
  rewrite decide_True by done.
  rewrite (process_response_tasks_head_raises serialize_response w2 name tid
             rest (set_tasks rest w2) e Hq2).
  2:{ unfold task_done. by rewrite Ht2. }
  2:{ unfold process_response_task. rewrite Ht2. cbn [set_callbacks task_coro].
      cbn [tasks]. by rewrite Hq2, deque_remove_head. }
  cbn [report]. subst w2. unfold update_task. rewrite Ht1. done.
Qed.

(** X15. Losing the connection cancels nothing: after [connection_lost] and
    the run of its teardown task and callback, the request tasks, the deque,
    what was written, the handler, the buffer and the connection set are
    exactly as before. The teardown coroutine ended normally only if no unit
    was pending, and otherwise with the RuntimeError of [set_exception]; its
    callback raised TypeError into the loop. *)
Theorem teardown_leaves_units_untouched w exc :
  let cid := length (close_tasks w) in
  let w' := run [EvLost exc; EvCloseStart cid; EvCloseCallback cid] w in
  loop_tasks w' = loop_tasks w /\ tasks w' = tasks w /\
  transport w' = transport w /\ handler w' = handler w /\
  buffer w' = buffer w /\ connections w' = connections w /\
  close_tasks w' =
    close_tasks w ++
    [{| close_exc := default (ConnectionResetError "Connection reset") exc;
        close_coro :=
          CloseFinished
            (match tasks w with
             | [] => Return tt
             | _ :: _ =>
                 Raise (RuntimeError
                          "Task does not support set_exception operation")
             end);
        close_callbacks := [] |}] /\
  loop_errors w' =
    loop_errors w ++
    [TypeError "<lambda>() got an unexpected number of positional arguments"].
Proof.
  intros cid w'. subst w'.
  change (run [EvLost exc; EvCloseStart cid; EvCloseCallback cid] w)
    with (step (EvCloseCallback cid)
            (step (EvCloseStart cid) (step (EvLost exc) w))).
  set (x := default (ConnectionResetError "Connection reset") exc).
  set (c0 := {| close_exc := x; close_coro := CloseCreated;
                close_callbacks := [discard_callback] |}).
  set (c1 := {| close_exc := x; close_coro := close x w;
                close_callbacks := [discard_callback] |}).
  set (c2 := {| close_exc := x; close_coro := close x w;
                close_callbacks := [] |}).
  assert (H1 : step (EvLost exc) w = set_close_tasks (close_tasks w ++ [c0]) w)
    by done.
  assert (H2 : step (EvCloseStart cid) (step (EvLost exc) w) =
               set_close_tasks (close_tasks w ++ [c1]) w).
  { rewrite H1. cbn [step close_tasks set_close_tasks]. subst cid.
    rewrite list_lookup_middle by done. subst c0. cbn iota beta.
    rewrite insert_app_r_alt, Nat.sub_diag by done. done. }
  assert (Hclose : close x w =
    CloseFinished (match tasks w with
                   | [] => Return tt
                   | _ :: _ =>
                       Raise (RuntimeError
                                "Task does not support set_exception operation")
                   end)).
  { unfold close. by destruct (tasks w) as [|[n i] d]. }
  rewrite H2. cbn [step close_tasks set_close_tasks]. subst cid.
  rewrite list_lookup_middle by done. subst c1. rewrite Hclose. cbn iota beta.
  rewrite insert_app_r_alt, Nat.sub_diag by done.
  unfold call_callback. cbn [arity discard_callback].
  rewrite decide_False by done. cbn [report]. done.
Qed.

End DispatchMore.

(** ** The written stream *)

Lemma payload_writes_frames datas :
  payload_writes (concat (map frame_writes datas)) = datas.
Proof. induction datas as [|d datas IH]; [done|]. cbn. by rewrite IH. Qed.

Lemma concat_frame_writes datas :
  concat (concat (map frame_writes datas)) = concat (map frame datas).
Proof.
  induction datas as [|d datas IH]; [done|].
  cbn [map concat frame_writes app]. rewrite IH. unfold frame.
  by rewrite <- app_assoc.
Qed.

Section StreamMore.

Variable parse_request : bytes -> Outcome (string * Message).
Variable serialize_response : string -> Message -> Outcome bytes.
Variable self : nat.

#[local] Abbreviation frames_of := (frames_of serialize_response).
#[local] Abbreviation run := (run parse_request serialize_response self).
#[local] Abbreviation accepted := (accepted self).

Lemma frames_of_are_writes w units :
  exists datas,
    concat (map (frames_of w) units) = concat (map frame_writes datas) /\
    Forall (fun d => exists name tid t m,
                       loop_tasks w !! tid = Some t /\
                       task_coro t = Finished (Return m) /\
                       serialize_response name m = Return d) datas.
Proof.
  induction units as [|[name tid] units (datas & IH & Hall)].
  { exists []. split; [done|constructor]. }
  cbn [map concat]. unfold frames_of at 1. cbn [fst snd].
  destruct (loop_tasks w !! tid) as [[n m [| | |[e|v]] cbs]|] eqn:Ht;
    try (exists datas; by split).
  destruct (serialize_response name v) as [e|data] eqn:Hser;
    [exists datas; by split|].
  exists (data :: datas). split.
  - cbn [map concat]. by rewrite IH.
  - constructor; [|done]. eexists name, tid, _, v. by split_and!.
Qed.

(** X16. Only whole frames go out: in every world a connection can reach,
    the writes on the transport come in pairs, the varint of twice the
    length of a serialised response of a finished unit followed by that
    serialisation, so the byte stream written is a sequence of complete
    frames. *)
Theorem written_stream_is_framed evs :
  let writes := transport (run evs accepted) in
  writes = concat (map frame_writes (payload_writes writes)) /\
  concat writes = concat (map frame (payload_writes writes)) /\
  Forall (fun d => exists name tid t m,
                     loop_tasks (run evs accepted) !! tid = Some t /\
                     task_coro t = Finished (Return m) /\
                     serialize_response name m = Return d)
    (payload_writes writes).
Proof.
  intros writes. subst writes.
  destruct (reachable_drained parse_request serialize_response self evs)
    as (k & _ & _ & Htr & _).
  destruct (frames_of_are_writes (run evs accepted)
              (take k (enqueued (run evs accepted)))) as (datas & Hd & Hall).
  rewrite Htr, Hd, payload_writes_frames, concat_frame_writes. done.
Qed.

End StreamMore.

Section PeerMore.

Variable parse_request : bytes -> Outcome (string * Message).

(** X17. What one engine writes another reads back: the bytes written on
    the transport of any reachable world, received in one read by a
    connection with an empty buffer whose parser accepts them, are extracted
    as exactly the serialised responses, in the order written (responses
    shorter than [2^69] bytes). *)
Theorem written_stream_decodes engine_parse serialize_response self evs v :
  let writes :=
    transport (run engine_parse serialize_response self evs (accepted self)) in
  buffer v = [] ->
  Forall (fun p => (N.of_nat (length p) < 2 ^ 69)%N) (payload_writes writes) ->
  Forall (fun p => exists nm, parse_request p = Return nm)
    (payload_writes writes) ->
  let '(v', got, r) := data_received parse_request (concat writes) v in
  got = payload_writes writes /\ buffer v' = [] /\ r = Return tt.
Proof.
  intros writes Hv Hshort Hok.
  assert (Hframed : concat writes = concat (map frame (payload_writes writes))).
  { subst writes.
    destruct (reachable_drained engine_parse serialize_response self evs)
      as (k & _ & _ & Htr & _).
    destruct (frames_of_are_writes serialize_response
                (run engine_parse serialize_response self evs (accepted self))
                (take k (enqueued
                   (run engine_parse serialize_response self evs
                      (accepted self))))) as (datas & Hd & _).
    by rewrite Htr, Hd, payload_writes_frames, concat_frame_writes. }
  rewrite Hframed.
  destruct (data_received_back_to_back parse_request _ v Hv Hshort Hok)
    as (v' & -> & Hb).
  done.
Qed.

End PeerMore.

(** ** The further properties on sample traffic *)

(** A 64-byte payload whose frame is cut right behind its two-byte prefix. *)
Lemma fragmented_frame_round_trip_witness :
  (Sample.feed [[x80; x01]; Sample.long_info] Sample.accepted).1.2 =
    [Sample.long_info].
Proof.
  generalize (fragmented_frame_round_trip Sample.parse_request
                Sample.long_info "info" (OtherMessage "info" (replicate 63 x00))
                ltac:(by vm_compute) eq_refl
                [[x80; x01]; Sample.long_info] Sample.accepted
                eq_refl ltac:(vm_compute; lia) (or_introl eq_refl)
                ltac:(vm_compute; repeat split; (right; lia) || lia)).
  unfold Sample.feed.
  destruct (feed _ _ _) as [[w' got] r]. intros H. exact (proj1 H).
Defined.

(** Two requests in one read. *)
Lemma pipelined_frames_are_all_extracted_witness :
  (Sample.data_received (frame [x03] ++ frame [x05]) Sample.accepted).1.2 =
    [[x03]; [x05]].
Proof.
  generalize (pipelined_frames_are_all_extracted Sample.parse_request
                [[x03]; [x05]] Sample.accepted eq_refl
                ltac:(repeat constructor)
                ltac:(repeat constructor; by eexists)).
  unfold Sample.data_received. cbn [map concat]. rewrite app_nil_r.
  destruct (data_received _ _ _) as [[w' got] r]. intros H. exact (proj1 H).
Defined.

(** Two ingestions, the second completing the frame. *)
Lemma feed_is_unparsed_suffix_witness :
  exists prefixes,
    framed prefixes [[x03; x00]] /\
    buffer Sample.accepted ++ concat [[x04; x03]; [x00]] =
      concat (zip_with app prefixes [[x03; x00]]) ++ [].
Proof.
  exact (feed_is_unparsed_suffix Sample.parse_request [[x04; x03]; [x00]]
           Sample.accepted
           (set_buffer []
              (process_request "info" (OtherMessage "info" [x00])
                 (set_buffer [] (set_buffer [x04; x03]
                    (set_buffer [x04; x03] Sample.accepted)))))
           [[x03; x00]] eq_refl).
Defined.

(** The done echo unit stays queued behind the failed head. *)
Lemma failed_head_stops_the_drain_witness :
  process_response_tasks Sample.serialize_response Traffic.failed_head =
    (set_tasks [("echo", 1)] Traffic.failed_head, Raise (not_implemented "")).
Proof.
  exact (failed_head_stops_the_drain Sample.serialize_response
           Traffic.failed_head "" 0 [("echo", 1)] Traffic.failed_task
           (not_implemented "") eq_refl eq_refl eq_refl).
Defined.

(** The sample serialiser refuses a request message as a response. *)
Lemma unserialisable_result_is_dropped_witness :
  process_response_tasks Sample.serialize_response Traffic.bad_answer =
    (set_tasks [] Traffic.bad_answer, Raise (TypeError "not a response")).
Proof.
  exact (unserialisable_result_is_dropped Sample.serialize_response
           Traffic.bad_answer "info" 0 []
           {| task_name := "info"; task_message := OtherMessage "info" [];
              task_coro := Finished (Return (RequestEcho "x"));
              task_callbacks := [drain_callback] |}
           (RequestEcho "x") (TypeError "not a response")
           eq_refl eq_refl eq_refl eq_refl).
Defined.

(** The answer of the sample info operation goes out as one frame. *)
Lemma done_head_is_written_framed_witness :
  process_response_tasks Sample.serialize_response Traffic.answered =
    (set_tasks []
       (set_transport (transport Traffic.answered ++ frame_writes [x03; x0a])
          Traffic.answered),
     Return tt).
Proof.
  refine (done_head_is_written_framed Sample.serialize_response
            Traffic.answered "info" 0 [] Traffic.answered_task
            (OtherMessage "reply" [x0a]) [x03; x0a]
            eq_refl eq_refl eq_refl eq_refl _).
  intros name2 tid2 rest2 H. discriminate H.
Defined.

(** Nothing is queued on a fresh connection. *)
Lemma unqueued_unit_raises_value_error_witness :
  (process_response_task Sample.serialize_response "info" 0 Sample.accepted).2 =
    Raise (ValueError "deque.remove(x): x not in deque").
Proof.
  generalize (unqueued_unit_raises_value_error Sample.serialize_response
                Sample.accepted "info" 0 (not_elem_of_nil _)).
  destruct (process_response_task _ _ _ _) as [w' r]. intros H.
  exact (proj1 H).
Defined.

(** The info handler of the sample connection was returned by the factory. *)
Lemma bound_handler_comes_from_factory_witness :
  exists tid,
    EvFactory tid (Return Sample.info_handler) ∈
      [EvData (frame [x03]); EvStart 0; EvFactory 0 (Return Sample.info_handler)].
Proof.
  exact (bound_handler_comes_from_factory Sample.parse_request
           Sample.serialize_response Sample.self
           [EvData (frame [x03]); EvStart 0;
            EvFactory 0 (Return Sample.info_handler)]
           Sample.info_handler eq_refl).
Defined.

(** The sample connection is still bound after it is lost. *)
Lemma bound_connection_stays_bound_witness :
  is_Some (handler (Sample.run [EvLost None] Sample.info_in_handler)).
Proof.
  exact (bound_connection_stays_bound Sample.parse_request
           Sample.serialize_response Sample.self [EvLost None]
           Sample.info_in_handler Sample.info_handler eq_refl).
Defined.

(** A consensus request on the connection bound to the info handler. *)
Lemma bound_handler_is_kept_witness :
  handler (Sample.run [EvData (frame [x04]); EvStart 1] Sample.info_in_handler) =
    Some Sample.info_handler.
Proof.
  refine (bound_handler_is_kept Sample.parse_request
            Sample.serialize_response Sample.self
            [EvData (frame [x04]); EvStart 1]
            Sample.info_in_handler Sample.info_handler eq_refl _).
  apply Forall_cons. split; [|apply Forall_nil_2].
  intros cls H. discriminate H.
Defined.


(** The factory fails the sample info request. *)
Lemma failed_bind_is_retried_witness :
  handler (Sample.step (EvFactory 0 (Raise (External "factory")))
             Traffic.info_waiting) = None.
Proof.
  exact (proj1 (failed_bind_is_retried Sample.parse_request
                  Sample.serialize_response Sample.self
                  Traffic.info_waiting 0
                  (set_coro (AwaitFactory InfoHandler) Sample.info_task)
                  InfoHandler (External "factory") eq_refl eq_refl eq_refl)).
Defined.

(** The sample info operation raises. *)
Lemma handler_failure_reaches_the_loop_witness :
  loop_errors (Sample.run [EvHandler 0 (Raise (External "handler"));
                           EvCallback 0] Sample.info_in_handler) =
    loop_errors Sample.info_in_handler ++ [External "handler"].
Proof.
  exact (proj2 (proj2 (handler_failure_reaches_the_loop Sample.parse_request
                  Sample.serialize_response Sample.self
                  Sample.info_in_handler "info" 0 []
                  (set_coro AwaitHandler Sample.info_task) []
                  (External "handler") eq_refl eq_refl eq_refl eq_refl))).
Defined.

(** The three sample responses, read back by a second sample connection. *)
Lemma written_stream_decodes_witness :
  (Sample.data_received
     (concat [[x04]; [x03; x0a]; [x04]; [x03; x0b]; [x04]; [x03; x0c]])
     Sample.accepted).1.2 =
    [[x03; x0a]; [x03; x0b]; [x03; x0c]].
Proof.
  assert (Hw : transport (run Sample.parse_request Sample.serialize_response
                            Sample.self Traffic.pipelined_events
                            (accepted Sample.self)) =
               [[x04]; [x03; x0a]; [x04]; [x03; x0b]; [x04]; [x03; x0c]])
    by (vm_compute; reflexivity).
  generalize (written_stream_decodes Sample.parse_request
                Sample.parse_request Sample.serialize_response Sample.self
                Traffic.pipelined_events Sample.accepted).
  cbv zeta. rewrite Hw. cbn [payload_writes]. intros H.
  specialize (H eq_refl ltac:(repeat constructor)
                ltac:(repeat constructor; by eexists)).
  unfold Sample.data_received.
  destruct (data_received _ _ _) as [[v' got] r]. exact (proj1 H).
Defined.

(** ** Draining again *)

(** X20. A drain that returned has left nothing for a drain that follows at
    once: called again in the state it produced, [process_response_tasks]
    returns without removing or writing anything, so the callbacks of several
    tasks that finished together do no harm. *)
Theorem drain_again_does_nothing serialize_response w w' :
  process_response_tasks serialize_response w = (w', Return tt) ->
  process_response_tasks serialize_response w' = (w', Return tt).
Proof.
  intros H.
  pose proof (process_response_tasks_stops serialize_response w) as Hstop.
  rewrite H in Hstop.
  destruct (Hstop eq_refl) as [Hnil | (name & tid & rest & Hq & Hpend)];
    unfold process_response_tasks.
  - by rewrite Hnil.
  - rewrite Hq. cbn [length process_response_tasks_loop]. by rewrite Hq, Hpend.
Qed.

(** The three sample units wait in their operations: two drains in a row. *)
Lemma drain_again_does_nothing_witness :
  process_response_tasks Sample.serialize_response Sample.pipelined =
    (Sample.pipelined, Return tt).
Proof.
  exact (drain_again_does_nothing Sample.serialize_response
           Sample.pipelined Sample.pipelined eq_refl).
Defined.
